(** * KenticoKontentSource: graph materialization and reference resolution

    A shallow embedding of [KenticoKontentSource] (the class that loads
    Kentico Kontent content into a Gridsome store) together with the
    properties of its node-assembly, taxonomy, asset and image-URL code.

    JavaScript objects passed by reference (the store, its collections) are
    modelled by an explicit [Store] value threaded through every method; a
    collection handle is the type name under which the store holds it. *)

From stdpp Require Import gmap strings list fin_maps.
From Stdlib Require Import ZArith Ascii.

Local Open Scope string_scope.
Local Open Scope list_scope.

(** ** Data handed over by the delivery client and the item factories *)

(** A taxonomy term as the delivery client returns it.  The [terms] property
    is an array of child terms; [None] stands for a term whose [terms]
    property is [undefined]. *)
#[local] Unset Elimination Schemes.
Inductive Term : Type :=
  mkTerm (id : string) (name : string) (slug : string)
         (terms : option (list Term)).
#[local] Set Elimination Schemes.

Definition term_id (t : Term) : string :=
  match t with mkTerm i _ _ _ => i end.
Definition term_name (t : Term) : string :=
  match t with mkTerm _ n _ _ => n end.
Definition term_slug (t : Term) : string :=
  match t with mkTerm _ _ sl _ => sl end.
Definition term_terms (t : Term) : option (list Term) :=
  match t with mkTerm _ _ _ ts => ts end.

(** What [taxonomyItemFactory.createTaxonomyItem] yields for one group. *)
Record TaxonomyItem : Type := mkTaxonomyItem {
  taxonomy_typeName : string;
  taxonomy_terms : option (list Term)
}.

(** The [item] part of a created node: what is inserted in the collection.
    [path] and [isComponent] are the properties read back from the record
    that [collection.addNode] returns. *)
Record Item : Type := mkItem {
  item_id : string;
  item_typeName : string;
  item_path : string;
  isComponent : bool
}.

Record Asset : Type := mkAsset {
  asset_id : string;
  asset_url : string;
  asset_type : string
}.

Record LinkedItem : Type := mkLinkedItem {
  linked_id : string;
  linked_typeName : string
}.

Record LinkedItemField : Type := mkLinkedItemField {
  linked_fieldName : string;
  linkedItems : list LinkedItem
}.

Record TaxonomyField : Type := mkTaxonomyField {
  taxonomy_fieldName : string;
  taxonomyGroup : string
}.

Record AssetField : Type := mkAssetField {
  asset_fieldName : string;
  assets : list Asset
}.

(** The value of [contentItem.createNode()]. *)
Record ContentNode : Type := mkContentNode {
  item : Item;
  linkedItemFields : list LinkedItemField;
  taxonomyFields : list TaxonomyField;
  assetFields : list AssetField
}.

(** ** Nodes and collections of the store *)

Record TermNode : Type := mkTermNode {
  termNode_id : string;
  termNode_name : string;
  termNode_slug : string;
  termNode_terms : list string
}.

Record ItemLinkNode : Type := mkItemLinkNode {
  itemLink_id : string;
  itemLink_typeName : string;
  itemLink_path : string
}.

Inductive Node : Type :=
| NTerm (t : TermNode)
| NItem (i : Item)
| NAsset (a : Asset)
| NItemLink (l : ItemLinkNode).

Definition node_id (n : Node) : string :=
  match n with
  | NTerm t => termNode_id t
  | NItem i => item_id i
  | NAsset a => asset_id a
  | NItemLink l => itemLink_id l
  end.

(** A collection: its nodes in insertion order ([collection.data]) and the
    reference declarations it received, in call order. *)
Record Collection : Type := mkCollection {
  data : list Node;
  references : list (string * string)
}.

Definition emptyCollection : Collection := mkCollection [] [].

(** One call received by the store or by one of its collections. *)
Inductive Call : Type :=
| CallAddCollection (typeName : string)
| CallAddReference (collection : string) (fieldName typeName : string)
| CallAddNode (collection : string) (n : Node)
| CallAddSchemaResolvers (typeName : string).

Record Store : Type := mkStore {
  collections : gmap string Collection;
  schemaResolvers : list string;
  calls : list Call
}.

Definition emptyStore : Store := mkStore ∅ [] [].

Global Instance Item_eq_dec : EqDecision Item.
Proof. solve_decision. Defined.
Global Instance Asset_eq_dec : EqDecision Asset.
Proof. solve_decision. Defined.
Global Instance TermNode_eq_dec : EqDecision TermNode.
Proof. solve_decision. Defined.
Global Instance ItemLinkNode_eq_dec : EqDecision ItemLinkNode.
Proof. solve_decision. Defined.
Global Instance Node_eq_dec : EqDecision Node.
Proof. solve_decision. Defined.
Global Instance Call_eq_dec : EqDecision Call.
Proof. solve_decision. Defined.

(** ** The store contract *)

Module GridsomeStore.

(** The store and its collections belong to Gridsome, not to this
    repository.  Each operation below follows the contract under which the
    source uses it; a collection is addressed by its type name. *)

(** Modelled from the spec: [store.getCollection(typeName)], the collection
    or [undefined]. *)
Definition getCollection (s : Store) (typeName : string) : option Collection :=
  collections s !! typeName.

(** Modelled from the spec: [store.addCollection(typeName)], a new and
    empty collection under that name. *)
Definition addCollection (typeName : string) (s : Store) : Store :=
  mkStore (<[typeName := emptyCollection]> (collections s))
          (schemaResolvers s)
          (calls s ++ [CallAddCollection typeName]).

(** Modelled from the spec: [collection.findNode({ id })], the first node
    with that id or [null]. *)
Definition findIn (c : Collection) (id : string) : option Node :=
  find (fun n => bool_decide (node_id n = id)) (data c).

Definition findNode (s : Store) (collection : string) (id : string)
  : option Node :=
  match collections s !! collection with
  | Some c => findIn c id
  | None => None
  end.

(** Modelled from the spec: [collection.addNode(data)], which inserts the
    node; the record it returns is the data inserted. *)
Definition addNode (collection : string) (n : Node) (s : Store) : Store :=
  mkStore (alter (fun c => mkCollection (data c ++ [n]) (references c))
                 collection (collections s))
          (schemaResolvers s)
          (calls s ++ [CallAddNode collection n]).

(** Modelled from the spec: [collection.addReference(fieldName, typeName)],
    a reference declaration on the collection. *)
Definition addReference (collection : string) (fieldName typeName : string)
           (s : Store) : Store :=
  mkStore (alter (fun c => mkCollection (data c)
                             (references c ++ [(fieldName, typeName)]))
                 collection (collections s))
          (schemaResolvers s)
          (calls s ++ [CallAddReference collection fieldName typeName]).

(** Modelled from the spec: [store.addSchemaResolvers(map)], [map] having
    the one key [typeName]. *)
Definition addSchemaResolvers (typeName : string) (s : Store) : Store :=
  mkStore (collections s)
          (schemaResolvers s ++ [typeName])
          (calls s ++ [CallAddSchemaResolvers typeName]).

(** Modelled from the spec: [collection.collection.data.length], the
    number of nodes of the collection. *)
Definition dataLength (s : Store) (collection : string) : nat :=
  match collections s !! collection with
  | Some c => length (data c)
  | None => 0
  end.

End GridsomeStore.

(** ** Exceptions *)

Inductive JsError : Type :=
| TypeError (what : string).

Inductive Outcome (A : Type) : Type :=
| Returned (a : A)
| Thrown (e : JsError).
Arguments Returned {A} a.
Arguments Thrown {A} e.

(** A method that mutates the store and may throw: the store reached is kept
    in both cases, as a JavaScript exception does not undo earlier calls. *)
Definition Eff (A : Type) : Type := Store -> Outcome A * Store.

Definition ret {A} (a : A) : Eff A := fun s => (Returned a, s).
Definition throw {A} (e : JsError) : Eff A := fun s => (Thrown e, s).
Definition bind {A B} (m : Eff A) (k : A -> Eff B) : Eff B :=
  fun s => match m s with
           | (Returned a, s') => k a s'
           | (Thrown e, s') => (Thrown e, s')
           end.
Definition lift (f : Store -> Store) : Eff unit := fun s => (Returned tt, f s).

Declare Scope eff_scope.
Delimit Scope eff_scope with eff.
Notation "x <- m ;; k" := (bind m (fun x => k))
  (at level 100, m at next level, right associativity) : eff_scope.
Notation "m ;;; k" := (bind m (fun _ => k))
  (at level 100, right associativity) : eff_scope.

(** [for (const x of xs) { body(x) }] *)
Fixpoint forEach {A} (body : A -> Eff unit) (xs : list A) : Eff unit :=
  match xs with
  | [] => ret tt
  | x :: xs' => (body x ;;; forEach body xs')%eff
  end.

(** ** The [url] schema resolver of the Asset type *)

Module AssetSchemaResolvers.

Inductive ImageFormatEnum : Type := Gif | Jpg | Pjpg | Png | Png8 | Webp.
Inductive ImageCompressionEnum : Type := Lossless | Lossy.

(** The calls an [ImageUrlBuilder] of the delivery SDK accepts. *)
Inductive BuilderCall : Type :=
| WithWidth (width : Z)
| WithHeight (height : Z)
| WithAutomaticFormat (backupFormat : ImageFormatEnum)
| WithFormat (format : ImageFormatEnum)
| WithCompression (compression : ImageCompressionEnum)
| WithQuality (quality : Z)
| WithDpr (dpr : Z).

(** An [ImageUrlBuilder]: the URL it was made for and the calls it has
    received so far, oldest first. *)
Record ImageUrlBuilder : Type := mkBuilder {
  builder_url : string;
  builder_calls : list BuilderCall
}.

Definition newImageUrlBuilder (url : string) : ImageUrlBuilder :=
  mkBuilder url [].

Definition call (c : BuilderCall) (b : ImageUrlBuilder) : ImageUrlBuilder :=
  mkBuilder (builder_url b) (builder_calls b ++ [c]).

(** The arguments of the resolver; [None] is the [null] default. *)
Record Args : Type := mkArgs {
  width : option Z;
  height : option Z;
  automaticFormat : option bool;
  format : option string;
  lossless : option bool;
  quality : option Z;
  dpr : option Z
}.

(** [String.prototype.toLowerCase], on strings as sequences of bytes: the
    ASCII capitals are lowered and every other byte is kept.  For the
    comparisons below that is all that matters: no string with a character
    outside ASCII lower-cases to one of the literals compared with. *)
Definition lowerAscii (c : ascii) : ascii :=
  let n := nat_of_ascii c in
  if (65 <=? n)%nat && (n <=? 90)%nat then ascii_of_nat (n + 32) else c.

Fixpoint toLowerCase (s : string) : string :=
  match s with
  | EmptyString => EmptyString
  | String c r => String (lowerAscii c) (toLowerCase r)
  end.

(** [switch (type.toLowerCase())] of the automatic format. *)
Definition switchType (type : string) (urlBuilder : ImageUrlBuilder)
  : ImageUrlBuilder :=
  let t := toLowerCase type in
  if String.eqb t "image/gif" then call (WithAutomaticFormat Gif) urlBuilder
  else if String.eqb t "image/jpeg"
       then call (WithAutomaticFormat Jpg) urlBuilder
  else if String.eqb t "image/png"
       then call (WithAutomaticFormat Png) urlBuilder
  else urlBuilder.

(** [switch (args.format.toLowerCase())] of the explicit format. *)
Definition switchFormat (format : string) (urlBuilder : ImageUrlBuilder)
  : ImageUrlBuilder :=
  let f := toLowerCase format in
  if String.eqb f "gif" then call (WithFormat Gif) urlBuilder
  else if String.eqb f "jpg" || String.eqb f "jpeg"
       then call (WithFormat Jpg) urlBuilder
  else if String.eqb f "pjpg" || String.eqb f "pjpeg"
       then call (WithFormat Pjpg) urlBuilder
  else if String.eqb f "png" then call (WithFormat Png) urlBuilder
  else if String.eqb f "png8" then call (WithFormat Png8) urlBuilder
  else if String.eqb f "webp" then call (WithFormat Webp) urlBuilder
  else urlBuilder.

(** The builder on which [resolve (obj, args)] finally calls [getUrl]. *)
Definition resolveBuilder (obj : Asset) (args : Args) : ImageUrlBuilder :=
  let url := asset_url obj in
  let type := asset_type obj in
  let urlBuilder := newImageUrlBuilder url in
  let urlBuilder :=
    match width args with
    | Some w => call (WithWidth w) urlBuilder
    | None => urlBuilder
    end in
  let urlBuilder :=
    match height args with
    | Some h => call (WithHeight h) urlBuilder
    | None => urlBuilder
    end in
  let urlBuilder :=
    match automaticFormat args with
    | Some true => switchType type urlBuilder
    | Some false => urlBuilder
    | None => urlBuilder
    end in
  let urlBuilder :=
    match format args with
    | Some f => switchFormat f urlBuilder
    | None => urlBuilder
    end in
  let urlBuilder :=
    match lossless args with
    | Some l =>
        let compression := if l then Lossless else Lossy in
        call (WithCompression compression) urlBuilder
    | None => urlBuilder
    end in
  let urlBuilder :=
    match quality args with
    | Some q => call (WithQuality q) urlBuilder
    | None => urlBuilder
    end in
  let urlBuilder :=
    match dpr args with
    | Some d => call (WithDpr d) urlBuilder
    | None => urlBuilder
    end in
  urlBuilder.

Section Resolve.
(** [urlBuilder.getUrl()] of the delivery SDK. *)
Variable getUrl : ImageUrlBuilder -> string.

Definition resolve (obj : Asset) (args : Args) : string :=
  getUrl (resolveBuilder obj args).
End Resolve.

(** *** Format selection as a table *)

(** The output format for a media type, and for a format name. *)
Definition mediaTypeFormats : list (string * ImageFormatEnum) :=
  [("image/gif", Gif); ("image/jpeg", Jpg); ("image/png", Png)].

Definition namedFormats : list (string * ImageFormatEnum) :=
  [("gif", Gif); ("jpg", Jpg); ("jpeg", Jpg); ("pjpg", Pjpg);
   ("pjpeg", Pjpg); ("png", Png); ("png8", Png8); ("webp", Webp)].

(** Looking a name up whatever its case. *)
Definition lookupFormat (table : list (string * ImageFormatEnum))
           (name : string) : option ImageFormatEnum :=
  match find (fun entry => String.eqb (toLowerCase name) (fst entry)) table
  with
  | Some entry => Some (snd entry)
  | None => None
  end.

Definition optional {A} (f : A -> BuilderCall) (o : option A)
  : list BuilderCall :=
  match o with
  | Some a => [f a]
  | None => []
  end.

(** The calls of each step of the resolver. *)
Definition dimensionCalls (args : Args) : list BuilderCall :=
  optional WithWidth (width args) ++ optional WithHeight (height args).

Definition automaticFormatCalls (obj : Asset) (args : Args)
  : list BuilderCall :=
  match automaticFormat args with
  | Some true =>
      optional WithAutomaticFormat
               (lookupFormat mediaTypeFormats (asset_type obj))
  | _ => []
  end.

Definition explicitFormatCalls (args : Args) : list BuilderCall :=
  match format args with
  | Some name => optional WithFormat (lookupFormat namedFormats name)
  | None => []
  end.

Definition compressionCalls (args : Args) : list BuilderCall :=
  optional (fun l : bool =>
              WithCompression (if l then Lossless else Lossy))
           (lossless args).

(** Format selection as the specification words it: the explicit format
    only when [automaticFormat] is not true. *)
Definition exclusiveFormatCalls (obj : Asset) (args : Args)
  : list BuilderCall :=
  match automaticFormat args with
  | Some true =>
      optional WithAutomaticFormat
               (lookupFormat mediaTypeFormats (asset_type obj))
  | _ => explicitFormatCalls args
  end.

(** A PNG asset, asked for with [automaticFormat: true, format: "webp"],
    and with [automaticFormat: true, width: 300]. *)
Definition pngAsset : Asset :=
  mkAsset "A1" "https://assets.example.com/picture.png" "image/png".

Definition automaticAndWebp : Args :=
  mkArgs None None (Some true) (Some "webp") None None None.

Definition automaticAndWidth : Args :=
  mkArgs (Some 300%Z) None (Some true) None None None None.

End AssetSchemaResolvers.

(** ** KenticoKontentSource *)

Section KenticoKontentSource.

(** [contentItemFactory.getAssetTypeName()],
    [contentItemFactory.getItemLinkTypeName()] and
    [taxonomyItemFactory.getTypeName(codename)]: the factories are
    configuration of the source, fixed for one load. *)
Variable assetTypeName : string.
Variable itemLinkTypeName : string.
Variable getTypeName : string -> string.

(** [getCollection(store, typeName)]: the handle returned is [typeName]. *)
Definition getCollection (typeName : string) (s : Store) : Store :=
  match GridsomeStore.getCollection s typeName with
  | Some _ => s
  | None => GridsomeStore.addCollection typeName s
  end.

(** The node built for one term: children are kept by id. *)
Definition termNodeOf (t : Term) (children : list Term) : TermNode :=
  mkTermNode (term_id t) (term_name t) (term_slug t) (map term_id children).

(** [addTaxonomyTermNodes(collection, terms)], one term of the loop.
    [term.terms.map] throws when [term.terms] is [undefined]; the inner
    [fix] is the loop of the recursive call on [term.terms], whose own
    [terms.length === 0] test returns at once on the empty array. *)
Fixpoint addTaxonomyTermNode (collection : string) (term : Term)
  : Eff unit :=
  match term_terms term with
  | None => throw (TypeError "Cannot read property 'map' of undefined")
  | Some children =>
      (lift (GridsomeStore.addNode collection
               (NTerm (termNodeOf term children))) ;;;
       (fix loop (ts : list Term) : Eff unit :=
          match ts with
          | [] => ret tt
          | t :: ts' => (addTaxonomyTermNode collection t ;;; loop ts')
          end) children)%eff
  end.

Definition addTaxonomyTermNodes (collection : string)
           (terms : option (list Term)) : Eff unit :=
  match terms with
  | None => throw (TypeError "Cannot read property 'length' of undefined")
  | Some ts =>
      if Nat.eqb (length ts) 0 then ret tt
      else forEach (addTaxonomyTermNode collection) ts
  end.

(** [addTaxonomyGroupNodes(store)], given the taxonomy items made from
    the groups that [deliveryClient.getTaxonomyGroups()] returned; first
    the body of its loop. *)
Definition addTaxonomyGroupNode (taxonomyItem : TaxonomyItem) : Eff unit :=
  let typeName := taxonomy_typeName taxonomyItem in
  (lift (getCollection typeName) ;;;
   lift (GridsomeStore.addReference typeName "terms" typeName) ;;;
   addTaxonomyTermNodes typeName (taxonomy_terms taxonomyItem))%eff.

Definition addTaxonomyGroupNodes (taxonomies : list TaxonomyItem)
  : Eff unit :=
  forEach addTaxonomyGroupNode taxonomies.

(** [addLinkedItemFields(collection, node)]; first the body of its loop.
    [typeNames[0]] exists, the field having at least one linked item. *)
Definition addLinkedItemField (collection : string)
           (linkedItemField : LinkedItemField) (s : Store) : Store :=
  if Nat.eqb (length (linkedItems linkedItemField)) 0 then s
  else
    let typeNames := map linked_typeName (linkedItems linkedItemField) in
    let fieldName := linked_fieldName linkedItemField in
    match typeNames !! 0%nat with
    | Some typeName =>
        GridsomeStore.addReference collection fieldName typeName s
    | None => s
    end.

Definition addLinkedItemFields (collection : string) (node : ContentNode)
           (s : Store) : Store :=
  foldl (fun s f => addLinkedItemField collection f s) s
        (linkedItemFields node).

(** [addTaxonomyFields(collection, node)]; first the body of its loop. *)
Definition addTaxonomyField (collection : string)
           (taxonomyField : TaxonomyField) (s : Store) : Store :=
  let fieldName := taxonomy_fieldName taxonomyField in
  let codename := taxonomyGroup taxonomyField in
  let typeName := getTypeName codename in
  GridsomeStore.addReference collection fieldName typeName s.

Definition addTaxonomyFields (collection : string) (node : ContentNode)
           (s : Store) : Store :=
  foldl (fun s f => addTaxonomyField collection f s) s
        (taxonomyFields node).

(** [addAssetFields(store, collection, node)]; first the bodies of its
    inner loop over the assets of a field and of its loop over the
    fields. *)
Definition addAsset (assetCollection : string) (asset : Asset) (s : Store)
  : Store :=
  match GridsomeStore.findNode s assetCollection (asset_id asset) with
  | None => GridsomeStore.addNode assetCollection (NAsset asset) s
  | Some _ => s
  end.

Definition addAssetField (typeName : string) (collection : string)
           (assetField : AssetField) (s : Store) : Store :=
  let fieldName := asset_fieldName assetField in
  let s := foldl (fun s a => addAsset typeName a s) s (assets assetField) in
  GridsomeStore.addReference collection fieldName typeName s.

Definition addAssetFields (collection : string) (node : ContentNode)
           (s : Store) : Store :=
  let typeName := assetTypeName in
  let s := getCollection typeName s in
  foldl (fun s f => addAssetField typeName collection f s) s
        (assetFields node).

(** [addItemLinkNode(store, node)], [node] being the record that
    [collection.addNode] returned. *)
Definition addItemLinkNode (node : Item) (s : Store) : Store :=
  let typeName := itemLinkTypeName in
  let s := getCollection typeName s in
  let itemLinkNode :=
    mkItemLinkNode (item_id node) (item_typeName node) (item_path node) in
  GridsomeStore.addNode typeName (NItemLink itemLinkNode) s.

(** [addContentNode(store, collection, node)] *)
Definition addContentNode (collection : string) (node : ContentNode)
           (s : Store) : Node * Store :=
  match GridsomeStore.findNode s collection (item_id (item node)) with
  | Some existingNode => (existingNode, s)
  | None =>
      let s := addLinkedItemFields collection node s in
      let s := addTaxonomyFields collection node s in
      let s := addAssetFields collection node s in
      let collectionNode := item node in
      let s := GridsomeStore.addNode collection (NItem collectionNode) s in
      let s := if negb (isComponent collectionNode)
               then addItemLinkNode collectionNode s else s in
      (NItem collectionNode, s)
  end.

(** [addContentItemNodes(store, contentItems)]; first the body of its
    loop.  Each content item stands for the node that its [createNode()]
    resolves to. *)
Definition addContentItemNode (node : ContentNode) (s : Store) : Store :=
  let typeName := item_typeName (item node) in
  let s := getCollection typeName s in
  snd (addContentNode typeName node s).

Definition addContentItemNodes (contentItems : list ContentNode)
           (s : Store) : Store :=
  foldl (fun s node => addContentItemNode node s) s contentItems.

(** The response of [deliveryClient.getContent(codename)].  [linkedItems]
    is an object; it is kept as its entries in [Object.keys] order. *)
Record Content : Type := mkContent {
  content_items : list ContentNode;
  content_linkedItems : list (string * ContentNode)
}.

(** [addContentNodes(store, contentType)], given the fetched content. *)
Definition addContentNodes (content : Content) (s : Store) : Store :=
  let contentItems := content_items content in
  let linkedItems := map snd (content_linkedItems content) in
  if Nat.eqb (length contentItems) 0 then s
  else
    let s := if Nat.ltb 0 (length linkedItems)
             then addContentItemNodes linkedItems s else s in
    addContentItemNodes contentItems s.

(** [addAssetSchemaResolvers(store)] and [addSchemaResolvers(store)] *)
Definition addAssetSchemaResolvers (s : Store) : Store :=
  let typeName := assetTypeName in
  let s := getCollection typeName s in
  if Nat.eqb (GridsomeStore.dataLength s typeName) 0 then s
  else GridsomeStore.addSchemaResolvers typeName s.

Definition addSchemaResolvers (s : Store) : Store :=
  addAssetSchemaResolvers s.

(** The delivery client as [load] sees it: the codenames of the content
    types, the taxonomy items, and the content fetched per codename. *)
Record DeliveryClient : Type := mkDeliveryClient {
  client_contentTypes : list string;
  client_taxonomies : list TaxonomyItem;
  client_getContent : string -> Content
}.

(** [load(store)].  [addTypeResolvers] only registers factories with the
    delivery client and leaves the store alone. *)
Definition load (deliveryClient : DeliveryClient) : Eff unit :=
  (addTaxonomyGroupNodes (client_taxonomies deliveryClient) ;;;
   forEach (fun codename =>
              lift (addContentNodes
                      (client_getContent deliveryClient codename)))
           (client_contentTypes deliveryClient) ;;;
   lift addSchemaResolvers)%eff.

(** *** Notions used to state the properties *)

(** The nodes of a collection of the store (none when the store has no
    such collection). *)
Definition nodesOf (s : Store) (collection : string) : list Node :=
  match collections s !! collection with
  | Some c => data c
  | None => []
  end.

Definition hasCollection (s : Store) (collection : string) : Prop :=
  is_Some (collections s !! collection).

(** How many nodes of a collection carry a given id. *)
Definition countId (s : Store) (collection : string) (id : string) : nat :=
  length (filter (fun n => node_id n = id) (nodesOf s collection)).

(** The calls the store received between two of its states. *)
Definition newCalls (before after : Store) : list Call :=
  drop (length (calls before)) (calls after).

(** A content node is present when its collection holds a node with its
    id. *)
Definition present (s : Store) (node : ContentNode) : Prop :=
  is_Some (GridsomeStore.findNode s (item_typeName (item node))
                                  (item_id (item node))).

(** [s'] is [s] after more calls: collections are never removed, and
    nodes, reference declarations, resolvers and calls are only added at
    the end. *)
Record extends (s s' : Store) : Prop := mkExtends {
  extends_collections :
    forall typeName c,
      collections s !! typeName = Some c ->
      exists c', collections s' !! typeName = Some c' /\
                 data c `prefix_of` data c' /\
                 references c `prefix_of` references c';
  extends_resolvers : schemaResolvers s `prefix_of` schemaResolvers s';
  extends_calls : calls s `prefix_of` calls s'
}.

(** Inserting a list of nodes one after the other. *)
Definition addNodes (collection : string) (ns : list Node) (s : Store)
  : Store :=
  foldl (fun s n => GridsomeStore.addNode collection n s) s ns.

(** Performing a recorded call, and a list of them, on a store. *)
Definition applyCall (c : Call) (s : Store) : Store :=
  match c with
  | CallAddCollection typeName => GridsomeStore.addCollection typeName s
  | CallAddReference collection fieldName typeName =>
      GridsomeStore.addReference collection fieldName typeName s
  | CallAddNode collection n => GridsomeStore.addNode collection n s
  | CallAddSchemaResolvers typeName =>
      GridsomeStore.addSchemaResolvers typeName s
  end.

Definition replay (l : list Call) (s : Store) : Store :=
  foldl (fun s c => applyCall c s) s l.

(** [s'] is [s] after a list of calls that all satisfy [P]. *)
Definition emits (P : Call -> Prop) (s s' : Store) : Prop :=
  exists l, s' = replay l s /\ Forall P l.

(** Both at once: [s'] is reached from [s] by calls that satisfy [P] and
    that keep what [s] held. *)
Definition steps (P : Call -> Prop) (s s' : Store) : Prop :=
  extends s s' /\ emits P s s'.

(** The calls that the passes over one node may make. *)
Definition linkedItemCall (collection : string) (node : ContentNode)
           (c : Call) : Prop :=
  exists f first rest,
    f ∈ linkedItemFields node /\
    linkedItems f = first :: rest /\
    c = CallAddReference collection (linked_fieldName f)
                         (linked_typeName first).

Definition taxonomyCall (collection : string) (node : ContentNode)
           (c : Call) : Prop :=
  exists f,
    f ∈ taxonomyFields node /\
    c = CallAddReference collection (taxonomy_fieldName f)
                         (getTypeName (taxonomyGroup f)).

Definition assetCall (collection : string) (node : ContentNode)
           (c : Call) : Prop :=
  c = CallAddCollection assetTypeName \/
  (exists f a, f ∈ assetFields node /\ a ∈ assets f /\
               c = CallAddNode assetTypeName (NAsset a)) \/
  (exists f, f ∈ assetFields node /\
             c = CallAddReference collection (asset_fieldName f)
                                  assetTypeName).

Definition itemLinkCall (node : Item) (c : Call) : Prop :=
  c = CallAddCollection itemLinkTypeName \/
  c = CallAddNode itemLinkTypeName
        (NItemLink (mkItemLinkNode (item_id node) (item_typeName node)
                                   (item_path node))).

Definition resolveCall (collection : string) (node : ContentNode)
           (c : Call) : Prop :=
  linkedItemCall collection node c \/
  taxonomyCall collection node c \/
  assetCall collection node c.

Definition contentNodeCall (collection : string) (node : ContentNode)
           (c : Call) : Prop :=
  resolveCall collection node c \/
  c = CallAddNode collection (NItem (item node)) \/
  itemLinkCall (item node) c.

(** An insertion of a content item is allowed only for an id that the
    collection did not hold in [s]. *)
Definition insertsAbsentItems (s : Store) (c : Call) : Prop :=
  forall collection it,
    c = CallAddNode collection (NItem it) ->
    GridsomeStore.findNode s collection (item_id it) = None.

(** The calls for one taxonomy group. *)
Definition taxonomyGroupCall (typeName : string) (c : Call) : Prop :=
  c = CallAddCollection typeName \/
  c = CallAddReference typeName "terms" typeName \/
  exists t, c = CallAddNode typeName (NTerm t).

(** The content nodes that [load] goes through, in order: for each
    content type with content items, its linked items, then its items. *)
Definition nodesOfContent (content : Content) : list ContentNode :=
  match content_items content with
  | [] => []
  | _ :: _ => map snd (content_linkedItems content) ++ content_items content
  end.

Definition nodesOfClient (deliveryClient : DeliveryClient)
  : list ContentNode :=
  flat_map (fun codename =>
              nodesOfContent (client_getContent deliveryClient codename))
           (client_contentTypes deliveryClient).

(** The store reached by [load] when no taxonomy term list is missing. *)
Definition loaded (deliveryClient : DeliveryClient) (s : Store) : Store :=
  addSchemaResolvers
    (addContentItemNodes (nodesOfClient deliveryClient)
       (snd (addTaxonomyGroupNodes (client_taxonomies deliveryClient) s))).

(** The ids held by the Asset collection, and the assets of a node. *)
Definition assetIds (s : Store) : list string :=
  map node_id (nodesOf s assetTypeName).

Definition assetsOf (node : ContentNode) : list Asset :=
  flat_map assets (assetFields node).

(** The collections of the four kinds of node have different names: the
    Asset and ItemLink types, the taxonomy types and the content types. *)
Definition namesApart (deliveryClient : DeliveryClient) : Prop :=
  assetTypeName <> itemLinkTypeName /\
  Forall (fun taxonomyItem =>
            taxonomy_typeName taxonomyItem <> assetTypeName)
         (client_taxonomies deliveryClient) /\
  Forall (fun node =>
            item_typeName (item node) <> assetTypeName /\
            item_typeName (item node) <> itemLinkTypeName /\
            Forall (fun taxonomyItem =>
                      taxonomy_typeName taxonomyItem
                      <> item_typeName (item node))
                   (client_taxonomies deliveryClient))
         (nodesOfClient deliveryClient).

(** Two nodes made from the same content entry (same type, same id) come
    with the same asset fields. *)
Definition entriesAgree (nodes : list ContentNode) : Prop :=
  forall n m,
    n ∈ nodes -> m ∈ nodes ->
    item_typeName (item n) = item_typeName (item m) ->
    item_id (item n) = item_id (item m) ->
    assetFields n = assetFields m.

(** Every node of [nodes] that is present has its assets in the Asset
    collection. *)
Definition assetsResolved (nodes : list ContentNode) (s : Store) : Prop :=
  forall n a,
    n ∈ nodes -> present s n -> a ∈ assetsOf n ->
    asset_id a ∈ assetIds s.

(** A call that leaves the nodes of a collection as they are. *)
Definition keepsNodes (collection : string) (c : Call) : Prop :=
  c <> CallAddCollection collection /\
  forall n, c <> CallAddNode collection n.

(** A call that leaves the registered schema resolvers as they are. *)
Definition keepsResolvers (c : Call) : Prop :=
  forall typeName, c <> CallAddSchemaResolvers typeName.

(** A term is well formed when its [terms] property, and that of every
    term below it, is an array. *)
Fixpoint wellFormed (t : Term) : bool :=
  match term_terms t with
  | None => false
  | Some children => forallb wellFormed children
  end.

(** Pre-order walk of a term: the term itself, then the walk of each of
    its children in turn (a missing child list counts for none). *)
Definition childrenOf (t : Term) : list Term :=
  match term_terms t with
  | Some children => children
  | None => []
  end.

Fixpoint walk (t : Term) : list Term :=
  t :: match term_terms t with
       | Some children => flat_map walk children
       | None => []
       end.

(** The node expected for a term: its [terms] attribute lists the ids of
    its direct children. *)
Definition termNodeSpec (t : Term) : TermNode :=
  mkTermNode (term_id t) (term_name t) (term_slug t)
             (map term_id (childrenOf t)).

Definition preorder (t : Term) : list TermNode :=
  map termNodeSpec (walk t).

Definition preorderForest (ts : list Term) : list TermNode :=
  map termNodeSpec (flat_map walk ts).

(** A taxonomy item whose terms can be inserted. *)
Definition wellFormedTaxonomy (taxonomyItem : TaxonomyItem) : bool :=
  match taxonomy_terms taxonomyItem with
  | Some ts => forallb wellFormed ts
  | None => false
  end.

(** The tree [A -> [B, C]], [B -> [D]]. *)
Definition termD : Term := mkTerm "D" "Term D" "term-d" (Some []).
Definition termC : Term := mkTerm "C" "Term C" "term-c" (Some []).
Definition termB : Term := mkTerm "B" "Term B" "term-b" (Some [termD]).
Definition termA : Term := mkTerm "A" "Term A" "term-a" (Some [termB; termC]).

(** A term whose [terms] property is missing. *)
Definition termBad : Term := mkTerm "X" "Term X" "term-x" None.

(** A store that holds one empty collection. *)
Definition storeWith (typeName : string) : Store :=
  GridsomeStore.addCollection typeName emptyStore.

(** An article with an empty and a two-type linked-item field, a
    taxonomy field, and asset fields of which one is empty and two share
    an asset; its author, who uses that asset too. *)
Definition assetA1 : Asset :=
  mkAsset "A1" "https://assets.example.com/a1.png" "image/png".

Definition articleN1 : ContentNode :=
  mkContentNode
    (mkItem "N1" "Article" "/articles/n1" false)
    [mkLinkedItemField "related" [];
     mkLinkedItemField "authors"
       [mkLinkedItem "P1" "Author"; mkLinkedItem "O1" "Organisation"]]
    [mkTaxonomyField "topics" "Topics"]
    [mkAssetField "images" [];
     mkAssetField "teaser" [assetA1];
     mkAssetField "gallery" [assetA1]].

Definition authorP1 : ContentNode :=
  mkContentNode
    (mkItem "P1" "Author" "/authors/p1" false)
    [] [] [mkAssetField "portrait" [assetA1]].

Definition articleContent : Content :=
  mkContent [articleN1] [("P1", authorP1)].

(** A delivery client with the content types [article] and [author] and
    one taxonomy group. *)
Definition exampleClient : DeliveryClient :=
  mkDeliveryClient
    ["article"; "author"]
    [mkTaxonomyItem "TaxonomyTopics" (Some [termA])]
    (fun codename =>
       if String.eqb codename "article" then articleContent
       else if String.eqb codename "author" then mkContent [authorP1] []
       else mkContent [] []).

Definition exampleGetTypeName (codename : string) : string :=
  "Taxonomy" ++ codename.

(** *** Notions for the further properties *)

(** The terms reached before the first one whose [terms] property is
    missing, in the order of the walk. *)
Definition hasTerms (t : Term) : bool :=
  match term_terms t with
  | Some _ => true
  | None => false
  end.

Fixpoint takeWhile {A} (p : A -> bool) (l : list A) : list A :=
  match l with
  | [] => []
  | x :: l' => if p x then x :: takeWhile p l' else []
  end.

Definition insertedTerms (ts : list Term) : list TermNode :=
  map termNodeSpec (takeWhile hasTerms (flat_map walk ts)).

(** The calls for one taxonomy group whose terms are all inserted, apart
    from the creation of its collection. *)
Definition taxonomyGroupCalls (taxonomyItem : TaxonomyItem) : list Call :=
  let typeName := taxonomy_typeName taxonomyItem in
  CallAddReference typeName "terms" typeName
    :: map (fun t => CallAddNode typeName (NTerm t))
           (match taxonomy_terms taxonomyItem with
            | Some ts => preorderForest ts
            | None => []
            end).

Definition isAddCollection (c : Call) : bool :=
  match c with
  | CallAddCollection _ => true
  | _ => false
  end.

(** The assets of a list that get inserted when the ids [seen] are taken:
    for each id the first asset that carries it. *)
Fixpoint newAssets (seen : list string) (l : list Asset) : list Asset :=
  match l with
  | [] => []
  | a :: l' =>
      if decide (asset_id a ∈ seen) then newAssets seen l'
      else a :: newAssets (seen ++ [asset_id a]) l'
  end.

(** The calls that [addContentItemNodes] may make for one content item. *)
Definition contentItemCall (node : ContentNode) (c : Call) : Prop :=
  c = CallAddCollection (item_typeName (item node)) \/
  contentNodeCall (item_typeName (item node)) node c.

(** A call that has nothing to do with a given collection. *)
Definition leavesCollection (collection : string) (c : Call) : Prop :=
  match c with
  | CallAddCollection typeName => typeName <> collection
  | CallAddReference c0 _ _ => c0 <> collection
  | CallAddNode c0 _ => c0 <> collection
  | CallAddSchemaResolvers _ => True
  end.

(** A rich-text component, and a delivery client whose second taxonomy
    group has a term without [terms]. *)
Definition componentC1 : ContentNode :=
  mkContentNode (mkItem "C1" "Quote" "" true) [] [] [].

Definition brokenClient : DeliveryClient :=
  mkDeliveryClient
    ["article"]
    [mkTaxonomyItem "TaxonomyTopics" (Some [termA]);
     mkTaxonomyItem "TaxonomyTags" (Some [termC; termBad; termD])]
    (fun _ => articleContent).

(** The Asset collection alone has a name of its own: it is not the
    ItemLink collection, nor that of a taxonomy group or of a content
    type. *)
Definition assetNamesApart (deliveryClient : DeliveryClient) : Prop :=
  assetTypeName <> itemLinkTypeName /\
  Forall (fun taxonomyItem =>
            taxonomy_typeName taxonomyItem <> assetTypeName)
         (client_taxonomies deliveryClient) /\
  Forall (fun node => item_typeName (item node) <> assetTypeName)
         (nodesOfClient deliveryClient).



(** The author fetched twice with different asset fields: as a linked
    item with the asset [A2], as a content item with the asset [A1]. *)
Definition assetA2 : Asset :=
  mkAsset "A2" "https://assets.example.com/a2.png" "image/png".

Definition authorP1Other : ContentNode :=
  mkContentNode
    (mkItem "P1" "Author" "/authors/p1" false)
    [] [] [mkAssetField "portrait" [assetA2]].

Definition copiesClient : DeliveryClient :=
  mkDeliveryClient ["author"] []
    (fun _ => mkContent [authorP1] [("P1", authorP1Other)]).

(** A content type that is itself called [Asset], with an item whose
    asset carries the item's id. *)
Definition assetTypedNode : ContentNode :=
  mkContentNode
    (mkItem "A1" "Asset" "/assets/a1" false)
    [] [] [mkAssetField "file" [assetA1]].

Definition clashClient : DeliveryClient :=
  mkDeliveryClient ["asset"] [] (fun _ => mkContent [assetTypedNode] []).

(** The author alone, and a store that holds the author already. *)
Definition authorClient : DeliveryClient :=
  mkDeliveryClient ["author"] [] (fun _ => mkContent [authorP1] []).

Definition storeWithAuthor : Store :=
  GridsomeStore.addNode "Author" (NItem (item authorP1)) (storeWith "Author").

(** A delivery client whose only content item has no asset field. *)
Definition plainClient : DeliveryClient :=
  mkDeliveryClient ["quote"] [] (fun _ => mkContent [componentC1] []).

(** *** Terms *)

Lemma Term_forest_ind (P : Term -> Prop) :
  (forall i n sl, P (mkTerm i n sl None)) ->
  (forall i n sl children,
      Forall P children -> P (mkTerm i n sl (Some children))) ->
  forall t, P t.
Proof.
  intros Hnone Hsome.
  fix IH 1.
  intros [i n sl [children|]]; [|apply Hnone].
  apply Hsome.
  induction children as [|c cs IHcs]; constructor; [apply IH | exact IHcs].
Qed.

(** The recursion of [addTaxonomyTermNode] is the recursive call of the
    source: [this.addTaxonomyTermNodes(collection, term.terms)]. *)
Lemma addTaxonomyTermNode_eq collection t :
  addTaxonomyTermNode collection t =
  match term_terms t with
  | None => throw (TypeError "Cannot read property 'map' of undefined")
  | Some children =>
      (lift (GridsomeStore.addNode collection
               (NTerm (termNodeOf t children))) ;;;
       addTaxonomyTermNodes collection (Some children))%eff
  end.
Proof.
  destruct t as [i n sl [children|]]; simpl; [|reflexivity].
  f_equal.
  assert (Hloop : forall ts,
             (fix loop (ts : list Term) : Eff unit :=
                match ts with
                | [] => ret tt
                | t :: ts' =>
                    (addTaxonomyTermNode collection t ;;; loop ts')%eff
                end) ts = forEach (addTaxonomyTermNode collection) ts).
  { induction ts as [|t ts IH]; simpl; [reflexivity|]. now rewrite IH. }
  rewrite Hloop. now destruct children.
Qed.

Lemma addTaxonomyTermNodes_forEach collection ts :
  addTaxonomyTermNodes collection (Some ts) =
  forEach (addTaxonomyTermNode collection) ts.
Proof. now destruct ts. Qed.

Lemma addNodes_app collection l1 l2 s :
  addNodes collection (l1 ++ l2) s =
  addNodes collection l2 (addNodes collection l1 s).
Proof. unfold addNodes. apply foldl_app. Qed.

Lemma calls_addNodes collection l s :
  calls (addNodes collection l s) = calls s ++ map (CallAddNode collection) l.
Proof.
  revert s. induction l as [|n l IH]; intros s; simpl.
  - now rewrite app_nil_r.
  - unfold addNodes in *. simpl. rewrite IH. simpl.
    now rewrite <- app_assoc.
Qed.

Lemma hasCollection_addNode collection n s c :
  hasCollection (GridsomeStore.addNode collection n s) c <-> hasCollection s c.
Proof.
  unfold hasCollection. simpl. rewrite lookup_alter.
  case_decide; [subst|reflexivity].
  now rewrite fmap_is_Some.
Qed.

Lemma nodesOf_addNode collection n s :
  hasCollection s collection ->
  nodesOf (GridsomeStore.addNode collection n s) collection =
  nodesOf s collection ++ [n].
Proof.
  intros [c Hc]. unfold nodesOf. simpl.
  rewrite lookup_alter_eq, Hc. reflexivity.
Qed.

Lemma nodesOf_addNode_ne collection n s c :
  collection <> c ->
  nodesOf (GridsomeStore.addNode collection n s) c = nodesOf s c.
Proof.
  intros Hne. unfold nodesOf. simpl. now rewrite lookup_alter_ne.
Qed.

Lemma nodesOf_addNodes collection l s :
  hasCollection s collection ->
  nodesOf (addNodes collection l s) collection = nodesOf s collection ++ l.
Proof.
  revert s. induction l as [|n l IH]; intros s Hs; simpl.
  - now rewrite app_nil_r.
  - unfold addNodes in *. simpl. rewrite IH.
    + rewrite nodesOf_addNode by assumption. now rewrite <- app_assoc.
    + now apply hasCollection_addNode.
Qed.

Lemma walk_children t children :
  term_terms t = Some children -> walk t = t :: flat_map walk children.
Proof. destruct t as [i n sl ts]. simpl. now intros ->. Qed.

Lemma preorderForest_cons t ts :
  preorderForest (t :: ts) = preorder t ++ preorderForest ts.
Proof. unfold preorderForest, preorder. simpl. apply map_app. Qed.

Lemma preorder_children i n sl children :
  preorder (mkTerm i n sl (Some children)) =
  termNodeOf (mkTerm i n sl (Some children)) children
    :: preorderForest children.
Proof. reflexivity. Qed.

Lemma newCalls_app s s' l :
  calls s' = calls s ++ l -> newCalls s s' = l.
Proof.
  intros H. unfold newCalls. rewrite H. apply drop_app_length.
Qed.

Lemma forEach_terms_preorder collection children :
  Forall (fun t => wellFormed t = true ->
                   forall s, addTaxonomyTermNode collection t s =
                             (Returned tt,
                              addNodes collection (map NTerm (preorder t)) s))
         children ->
  forallb wellFormed children = true ->
  forall s, forEach (addTaxonomyTermNode collection) children s =
            (Returned tt,
             addNodes collection (map NTerm (preorderForest children)) s).
Proof.
  induction 1 as [|t ts Ht _ IH]; intros Hwf s; simpl in *.
  - reflexivity.
  - apply andb_prop in Hwf as [Hwt Hwts].
    unfold bind. rewrite (Ht Hwt s), (IH Hwts).
    now rewrite preorderForest_cons, map_app, addNodes_app.
Qed.

Lemma addTaxonomyTermNode_preorder collection t :
  wellFormed t = true ->
  forall s, addTaxonomyTermNode collection t s =
            (Returned tt, addNodes collection (map NTerm (preorder t)) s).
Proof.
  induction t as [i n sl|i n sl children IH] using Term_forest_ind;
    intros Hwf s; [discriminate|].
  rewrite addTaxonomyTermNode_eq. cbn [term_terms].
  rewrite addTaxonomyTermNodes_forEach.
  simpl in Hwf. unfold bind, lift.
  rewrite (forEach_terms_preorder collection children IH Hwf).
  now rewrite preorder_children.
Qed.

Lemma addTaxonomyTermNodes_preorder collection ts s :
  forallb wellFormed ts = true ->
  addTaxonomyTermNodes collection (Some ts) s =
  (Returned tt, addNodes collection (map NTerm (preorderForest ts)) s).
Proof.
  intros Hwf. rewrite addTaxonomyTermNodes_forEach.
  apply forEach_terms_preorder; [|assumption].
  apply Forall_forall. intros t _ Ht. now apply addTaxonomyTermNode_preorder.
Qed.

Lemma forEach_terms_throws collection children :
  Forall (fun t => wellFormed t = false ->
                   forall s, exists e s',
                       addTaxonomyTermNode collection t s = (Thrown e, s'))
         children ->
  forallb wellFormed children = false ->
  forall s, exists e s',
      forEach (addTaxonomyTermNode collection) children s = (Thrown e, s').
Proof.
  induction 1 as [|t ts Ht _ IH]; intros Hwf s; simpl in *.
  - discriminate.
  - unfold bind. destruct (wellFormed t) eqn:Hwt; simpl in Hwf.
    + rewrite (addTaxonomyTermNode_preorder collection t Hwt). now apply IH.
    + destruct (Ht eq_refl s) as (e & s' & ->). now exists e, s'.
Qed.

Lemma addTaxonomyTermNode_throws collection t :
  wellFormed t = false ->
  forall s, exists e s', addTaxonomyTermNode collection t s = (Thrown e, s').
Proof.
  induction t as [i n sl|i n sl children IH] using Term_forest_ind;
    intros Hwf s.
  - simpl. unfold throw. eauto.
  - rewrite addTaxonomyTermNode_eq. cbn [term_terms].
    rewrite addTaxonomyTermNodes_forEach.
    simpl in Hwf. unfold bind, lift.
    apply (forEach_terms_throws collection children IH Hwf).
Qed.

(** *** The store: what each call changes and what it keeps *)

Lemma extends_refl s : extends s s.
Proof.
  split; [|reflexivity..].
  intros typeName c Hc. exists c. repeat split; [assumption|reflexivity..].
Qed.

Lemma extends_trans s1 s2 s3 :
  extends s1 s2 -> extends s2 s3 -> extends s1 s3.
Proof.
  intros [Hc12 Hr12 Hl12] [Hc23 Hr23 Hl23]. split.
  - intros typeName c Hc.
    destruct (Hc12 _ _ Hc) as (c2 & Hc2 & Hd2 & Hf2).
    destruct (Hc23 _ _ Hc2) as (c3 & Hc3 & Hd3 & Hf3).
    exists c3. repeat split; [assumption|etrans; eassumption..].
  - etrans; eassumption.
  - etrans; eassumption.
Qed.

Lemma extends_addNode collection n s :
  extends s (GridsomeStore.addNode collection n s).
Proof.
  split; simpl; [|reflexivity|now apply prefix_app_r].
  intros typeName c Hc. rewrite lookup_alter. case_decide.
  - subst. rewrite Hc. simpl. eexists. split; [reflexivity|]. simpl.
    split; [now apply prefix_app_r|reflexivity].
  - exists c. repeat split; [assumption|reflexivity..].
Qed.

Lemma extends_addReference collection fieldName typeName s :
  extends s (GridsomeStore.addReference collection fieldName typeName s).
Proof.
  split; simpl; [|reflexivity|now apply prefix_app_r].
  intros tn c Hc. rewrite lookup_alter. case_decide.
  - subst. rewrite Hc. simpl. eexists. split; [reflexivity|]. simpl.
    split; [reflexivity|now apply prefix_app_r].
  - exists c. repeat split; [assumption|reflexivity..].
Qed.

Lemma extends_addSchemaResolvers typeName s :
  extends s (GridsomeStore.addSchemaResolvers typeName s).
Proof.
  split; simpl; [|now apply prefix_app_r..].
  intros tn c Hc. exists c. repeat split; [assumption|reflexivity..].
Qed.

Lemma getCollection_cases typeName s :
  (hasCollection s typeName /\ getCollection typeName s = s) \/
  (collections s !! typeName = None /\
   getCollection typeName s = GridsomeStore.addCollection typeName s).
Proof.
  unfold getCollection, GridsomeStore.getCollection, hasCollection.
  destruct (collections s !! typeName) eqn:Hc; [left|right]; eauto.
Qed.

Lemma extends_getCollection typeName s : extends s (getCollection typeName s).
Proof.
  destruct (getCollection_cases typeName s) as [[_ ->]|[Hnone ->]];
    [apply extends_refl|].
  split; simpl; [|reflexivity|now apply prefix_app_r].
  intros tn c Hc. rewrite lookup_insert_ne by congruence.
  exists c. repeat split; [assumption|reflexivity..].
Qed.

Lemma hasCollection_getCollection typeName s :
  hasCollection (getCollection typeName s) typeName.
Proof.
  destruct (getCollection_cases typeName s) as [[H ->]|[_ ->]];
    [assumption|].
  unfold hasCollection. simpl. rewrite lookup_insert_eq. eauto.
Qed.

Lemma hasCollection_extends s s' collection :
  extends s s' -> hasCollection s collection -> hasCollection s' collection.
Proof.
  intros [Hc _ _] [c Hs]. destruct (Hc _ _ Hs) as (c' & Hc' & _).
  now exists c'.
Qed.

Lemma extends_foldl {A} (f : Store -> A -> Store) l :
  (forall s x, extends s (f s x)) -> forall s, extends s (foldl f s l).
Proof.
  intros Hf. induction l as [|x l IH]; intros s; simpl.
  - apply extends_refl.
  - eapply extends_trans; [apply Hf|apply IH].
Qed.

Lemma find_app_Some {A} (p : A -> bool) l k x :
  find p l = Some x -> find p (l ++ k) = Some x.
Proof.
  induction l as [|y l IH]; simpl; [discriminate|].
  destruct (p y); [trivial|exact IH].
Qed.

Lemma findNode_extends s s' collection id n :
  extends s s' ->
  GridsomeStore.findNode s collection id = Some n ->
  GridsomeStore.findNode s' collection id = Some n.
Proof.
  intros [Hc _ _]. unfold GridsomeStore.findNode.
  destruct (collections s !! collection) as [c|] eqn:Hs; [|discriminate].
  destruct (Hc _ _ Hs) as (c' & -> & [k Hk] & _).
  unfold GridsomeStore.findIn. rewrite Hk. apply find_app_Some.
Qed.

Lemma findNode_extends_None s s' collection id :
  extends s s' ->
  GridsomeStore.findNode s' collection id = None ->
  GridsomeStore.findNode s collection id = None.
Proof.
  intros Hext Hnone.
  destruct (GridsomeStore.findNode s collection id) as [n|] eqn:Hf;
    [|reflexivity].
  rewrite (findNode_extends _ _ _ _ _ Hext Hf) in Hnone. discriminate.
Qed.

Lemma present_extends s s' node :
  extends s s' -> present s node -> present s' node.
Proof.
  intros Hext [n Hn]. exists n. eapply findNode_extends; eassumption.
Qed.

(** *** Calls emitted *)

Lemma replay_app l1 l2 s : replay (l1 ++ l2) s = replay l2 (replay l1 s).
Proof. unfold replay. apply foldl_app. Qed.

Lemma calls_applyCall c s : calls (applyCall c s) = calls s ++ [c].
Proof. now destruct c. Qed.

Lemma calls_replay l s : calls (replay l s) = calls s ++ l.
Proof.
  revert s. induction l as [|c l IH]; intros s; simpl.
  - now rewrite app_nil_r.
  - unfold replay in *. simpl. rewrite IH, calls_applyCall.
    now rewrite <- app_assoc.
Qed.

Lemma emits_refl P s : emits P s s.
Proof. exists []. split; [reflexivity|constructor]. Qed.

Lemma emits_trans P s1 s2 s3 :
  emits P s1 s2 -> emits P s2 s3 -> emits P s1 s3.
Proof.
  intros (l1 & H1 & F1) (l2 & H2 & F2). exists (l1 ++ l2). split.
  - now rewrite replay_app, <- H1.
  - now apply Forall_app.
Qed.

Lemma emits_weaken (P Q : Call -> Prop) s s' :
  (forall c, P c -> Q c) -> emits P s s' -> emits Q s s'.
Proof.
  intros HPQ (l & Hl & Fl). exists l. split; [assumption|].
  eapply Forall_impl; eassumption.
Qed.

Lemma emits_one (P : Call -> Prop) s c :
  P c -> emits P s (applyCall c s).
Proof. intros Hc. exists [c]. split; [reflexivity|]. now constructor. Qed.

Lemma emits_foldl {A} P (f : Store -> A -> Store) l :
  (forall s x, x ∈ l -> emits P s (f s x)) ->
  forall s, emits P s (foldl f s l).
Proof.
  induction l as [|x l IH]; intros Hf s; simpl.
  - apply emits_refl.
  - eapply emits_trans.
    + apply Hf. now left.
    + apply IH. intros s' y Hy. apply Hf. now right.
Qed.

Lemma emits_newCalls P s s' :
  emits P s s' -> Forall P (newCalls s s').
Proof.
  intros (l & -> & Fl). now rewrite (newCalls_app _ _ l (calls_replay l s)).
Qed.

Lemma emits_getCollection (P : Call -> Prop) typeName s :
  P (CallAddCollection typeName) -> emits P s (getCollection typeName s).
Proof.
  intros HP.
  destruct (getCollection_cases typeName s) as [[_ ->]|[_ ->]].
  - apply emits_refl.
  - now apply (emits_one P s (CallAddCollection typeName)).
Qed.

Lemma extends_calls_app s s' :
  extends s s' -> calls s' = calls s ++ newCalls s s'.
Proof.
  intros [_ _ [l Hl]]. now rewrite (newCalls_app _ _ _ Hl).
Qed.

Lemma newCalls_trans s1 s2 s3 :
  extends s1 s2 -> extends s2 s3 ->
  newCalls s1 s3 = newCalls s1 s2 ++ newCalls s2 s3.
Proof.
  intros H12 H23. apply newCalls_app.
  rewrite (extends_calls_app _ _ H23), (extends_calls_app _ _ H12).
  now rewrite app_assoc.
Qed.

Lemma newCalls_foldl_elem {A} (f : Store -> A -> Store) l (c : Call) x :
  (forall s y, extends s (f s y)) ->
  x ∈ l ->
  (forall s, c ∈ newCalls s (f s x)) ->
  forall s, c ∈ newCalls s (foldl f s l).
Proof.
  intros Hext Hx Hc. induction l as [|y l IH]; intros s.
  - inversion Hx.
  - simpl.
    rewrite (newCalls_trans s (f s y)) by (apply Hext || now apply extends_foldl).
    apply elem_of_app.
    apply elem_of_cons in Hx as [->|Hx]; [left; apply Hc|right; now apply IH].
Qed.

(** *** Linked-item fields *)

Lemma addLinkedItemField_empty collection f s :
  linkedItems f = [] -> addLinkedItemField collection f s = s.
Proof. unfold addLinkedItemField. now intros ->. Qed.

Lemma addLinkedItemField_cons collection f first rest s :
  linkedItems f = first :: rest ->
  addLinkedItemField collection f s =
  GridsomeStore.addReference collection (linked_fieldName f)
                             (linked_typeName first) s.
Proof. unfold addLinkedItemField. now intros ->. Qed.

Lemma extends_addLinkedItemField collection f s :
  extends s (addLinkedItemField collection f s).
Proof.
  destruct (linkedItems f) as [|first rest] eqn:Hf.
  - rewrite addLinkedItemField_empty by assumption. apply extends_refl.
  - rewrite (addLinkedItemField_cons _ _ _ _ _ Hf).
    apply extends_addReference.
Qed.

(** Every call of the linked-item pass declares, on the node's
    collection, a field with at least one linked item as a reference to
    the type of its first linked item. *)
Lemma emits_addLinkedItemFields collection node s :
  emits (linkedItemCall collection node)
        s (addLinkedItemFields collection node s).
Proof.
  unfold addLinkedItemFields. apply emits_foldl. clear s.
  intros s f Hin.
  destruct (linkedItems f) as [|first rest] eqn:Hf.
  - rewrite addLinkedItemField_empty by assumption. apply emits_refl.
  - rewrite (addLinkedItemField_cons _ _ _ _ _ Hf).
    apply (emits_one _ s (CallAddReference _ _ _)).
    now exists f, first, rest.
Qed.

Lemma NoDup_map_inj {A B} (g : A -> B) l x y :
  NoDup (map g l) -> x ∈ l -> y ∈ l -> g x = g y -> x = y.
Proof.
  induction l as [|z l IH]; simpl; intros Hnd Hx Hy Hg; [inversion Hx|].
  apply NoDup_cons in Hnd as [Hz Hnd].
  apply elem_of_cons in Hx as [->|Hx]; apply elem_of_cons in Hy as [->|Hy].
  - reflexivity.
  - exfalso. apply Hz. rewrite Hg. now apply list_elem_of_fmap_2.
  - exfalso. apply Hz. rewrite <- Hg. now apply list_elem_of_fmap_2.
  - now apply IH.
Qed.

(** C9: a linked-item field with at least one linked item is declared as
    a reference to the type of its first linked item, whatever the types
    of the others; the pass is a total function of the store and makes no
    other declaration for that field. *)
Theorem addLinkedItemFields_first_type collection node s f first rest :
  f ∈ linkedItemFields node ->
  linkedItems f = first :: rest ->
  addLinkedItemField collection f s =
    GridsomeStore.addReference collection (linked_fieldName f)
                               (linked_typeName first) s /\
  CallAddReference collection (linked_fieldName f) (linked_typeName first)
    ∈ newCalls s (addLinkedItemFields collection node s) /\
  (NoDup (map linked_fieldName (linkedItemFields node)) ->
   forall c t,
     CallAddReference c (linked_fieldName f) t
       ∈ newCalls s (addLinkedItemFields collection node s) ->
     c = collection /\ t = linked_typeName first).
Proof.
  intros Hin Hf.
  split; [exact (addLinkedItemField_cons _ _ _ _ _ Hf)|]. split.
  - unfold addLinkedItemFields.
    apply (newCalls_foldl_elem
             (fun s f => addLinkedItemField collection f s) _ _ f);
      [intros; apply extends_addLinkedItemField|assumption|].
    intros s0. rewrite (addLinkedItemField_cons _ _ _ _ _ Hf).
    erewrite newCalls_app by reflexivity. now left.
  - intros Hnd c t Hc.
    pose proof (emits_newCalls _ _ _
                  (emits_addLinkedItemFields collection node s)) as Hall.
    rewrite Forall_forall in Hall.
    destruct (Hall _ Hc) as (f' & first' & rest' & Hin' & Hf' & Heq).
    injection Heq as -> Hname ->.
    assert (f = f') as <- by (eapply NoDup_map_inj; eassumption).
    rewrite Hf in Hf'. injection Hf' as <- _. now split.
Qed.

(** *** Asset fields *)

Lemma extends_addAsset typeName a s : extends s (addAsset typeName a s).
Proof.
  unfold addAsset. destruct (GridsomeStore.findNode _ _ _).
  - apply extends_refl.
  - apply extends_addNode.
Qed.

Lemma extends_addAssetField typeName collection f s :
  extends s (addAssetField typeName collection f s).
Proof.
  unfold addAssetField.
  eapply extends_trans; [|apply extends_addReference].
  apply extends_foldl. intros. apply extends_addAsset.
Qed.

Lemma extends_addAssetFields collection node s :
  extends s (addAssetFields collection node s).
Proof.
  unfold addAssetFields.
  eapply extends_trans; [apply extends_getCollection|].
  apply extends_foldl. intros. apply extends_addAssetField.
Qed.

(** C4: the two passes differ on empty fields.  A field name all of whose
    linked-item fields are empty is declared by no call of the
    linked-item pass; every asset field, with or without assets, is
    declared on the node's collection as a reference to the Asset type. *)
Theorem reference_declaration_asymmetry collection node s :
  (forall fieldName,
      (forall f, f ∈ linkedItemFields node ->
                 linked_fieldName f = fieldName -> linkedItems f = []) ->
      forall c t,
        CallAddReference c fieldName t
          ∉ newCalls s (addLinkedItemFields collection node s)) /\
  (forall f,
      f ∈ assetFields node ->
      CallAddReference collection (asset_fieldName f) assetTypeName
        ∈ newCalls s (addAssetFields collection node s)).
Proof.
  split.
  - intros fieldName Hempty c t Hc.
    pose proof (emits_newCalls _ _ _
                  (emits_addLinkedItemFields collection node s)) as Hall.
    rewrite Forall_forall in Hall.
    destruct (Hall _ Hc) as (f & first & rest & Hin & Hf & Heq).
    injection Heq as _ Hname _.
    rewrite (Hempty f Hin (eq_sym Hname)) in Hf. discriminate.
  - intros f Hin. unfold addAssetFields.
    rewrite (newCalls_trans s (getCollection assetTypeName s));
      [|apply extends_getCollection
       |apply extends_foldl; intros; apply extends_addAssetField].
    apply elem_of_app. right.
    apply (newCalls_foldl_elem
             (fun s f => addAssetField assetTypeName collection f s) _ _ f);
      [intros; apply extends_addAssetField|assumption|].
    intros s0. unfold addAssetField.
    rewrite (newCalls_trans s0
               (foldl (fun s a => addAsset assetTypeName a s) s0 (assets f)));
      [|apply extends_foldl; intros; apply extends_addAsset
       |apply extends_addReference].
    apply elem_of_app. right.
    erewrite newCalls_app by reflexivity. now left.
Qed.

(** *** Resolving and inserting one content node *)

Lemma steps_refl P s : steps P s s.
Proof. split; [apply extends_refl|apply emits_refl]. Qed.

Lemma steps_trans P s1 s2 s3 :
  steps P s1 s2 -> steps P s2 s3 -> steps P s1 s3.
Proof.
  intros [E1 M1] [E2 M2].
  split; [eapply extends_trans|eapply emits_trans]; eassumption.
Qed.

Lemma steps_weaken (P Q : Call -> Prop) s s' :
  (forall c, P c -> Q c) -> steps P s s' -> steps Q s s'.
Proof. intros HPQ [E M]. split; [assumption|]. eapply emits_weaken; eauto. Qed.

Lemma steps_foldl {A} P (f : Store -> A -> Store) l :
  (forall s x, x ∈ l -> steps P s (f s x)) ->
  forall s, steps P s (foldl f s l).
Proof.
  induction l as [|x l IH]; intros Hf s; simpl.
  - apply steps_refl.
  - eapply steps_trans.
    + apply Hf. now left.
    + apply IH. intros s' y Hy. apply Hf. now right.
Qed.

Lemma steps_addNode (P : Call -> Prop) collection n s :
  P (CallAddNode collection n) ->
  steps P s (GridsomeStore.addNode collection n s).
Proof.
  intros HP. split; [apply extends_addNode|].
  now apply (emits_one P s (CallAddNode collection n)).
Qed.

Lemma steps_addReference (P : Call -> Prop) collection fieldName typeName s :
  P (CallAddReference collection fieldName typeName) ->
  steps P s (GridsomeStore.addReference collection fieldName typeName s).
Proof.
  intros HP. split; [apply extends_addReference|].
  now apply (emits_one P s (CallAddReference collection fieldName typeName)).
Qed.

Lemma steps_addSchemaResolvers (P : Call -> Prop) typeName s :
  P (CallAddSchemaResolvers typeName) ->
  steps P s (GridsomeStore.addSchemaResolvers typeName s).
Proof.
  intros HP. split; [apply extends_addSchemaResolvers|].
  now apply (emits_one P s (CallAddSchemaResolvers typeName)).
Qed.

Lemma steps_getCollection (P : Call -> Prop) typeName s :
  P (CallAddCollection typeName) -> steps P s (getCollection typeName s).
Proof.
  intros HP.
  split; [apply extends_getCollection|now apply emits_getCollection].
Qed.

Lemma steps_addLinkedItemFields collection node s :
  steps (linkedItemCall collection node)
        s (addLinkedItemFields collection node s).
Proof.
  split; [|apply emits_addLinkedItemFields].
  apply extends_foldl. intros. apply extends_addLinkedItemField.
Qed.

Lemma steps_addTaxonomyFields collection node s :
  steps (taxonomyCall collection node)
        s (addTaxonomyFields collection node s).
Proof.
  unfold addTaxonomyFields. apply steps_foldl. clear s.
  intros s f Hin. unfold addTaxonomyField.
  apply steps_addReference. now exists f.
Qed.

Lemma steps_addAssetFields collection node s :
  steps (assetCall collection node) s (addAssetFields collection node s).
Proof.
  unfold addAssetFields.
  eapply steps_trans; [apply steps_getCollection; now left|].
  apply steps_foldl. intros s1 f Hf. unfold addAssetField.
  eapply steps_trans; [|apply steps_addReference; right; right; now exists f].
  apply steps_foldl. intros s2 a Ha. unfold addAsset.
  destruct (GridsomeStore.findNode _ _ _); [apply steps_refl|].
  apply steps_addNode. right. left. now exists f, a.
Qed.

Lemma steps_addItemLinkNode node s :
  steps (itemLinkCall node) s (addItemLinkNode node s).
Proof.
  unfold addItemLinkNode.
  eapply steps_trans; [apply steps_getCollection; now left|].
  apply steps_addNode. now right.
Qed.

Lemma addContentNode_found collection node s existingNode :
  GridsomeStore.findNode s collection (item_id (item node))
    = Some existingNode ->
  addContentNode collection node s = (existingNode, s).
Proof. unfold addContentNode. now intros ->. Qed.

Lemma addContentNode_fresh collection node s :
  GridsomeStore.findNode s collection (item_id (item node)) = None ->
  addContentNode collection node s =
  (NItem (item node),
   let s3 := addAssetFields collection node
               (addTaxonomyFields collection node
                  (addLinkedItemFields collection node s)) in
   let s4 := GridsomeStore.addNode collection (NItem (item node)) s3 in
   if negb (isComponent (item node))
   then addItemLinkNode (item node) s4 else s4).
Proof. unfold addContentNode. now intros ->. Qed.

Lemma steps_resolve collection node s :
  steps (resolveCall collection node) s
        (addAssetFields collection node
           (addTaxonomyFields collection node
              (addLinkedItemFields collection node s))).
Proof.
  set (s1 := addLinkedItemFields collection node s).
  set (s2 := addTaxonomyFields collection node s1).
  apply (steps_trans _ _ s2); [apply (steps_trans _ _ s1)|].
  - apply (steps_weaken (linkedItemCall collection node));
      [|apply steps_addLinkedItemFields].
    intros c Hc. now left.
  - apply (steps_weaken (taxonomyCall collection node));
      [|apply steps_addTaxonomyFields].
    intros c Hc. right. now left.
  - apply (steps_weaken (assetCall collection node));
      [|apply steps_addAssetFields].
    intros c Hc. right. right. exact Hc.
Qed.

Lemma steps_addContentNode collection node s :
  steps (contentNodeCall collection node)
        s (snd (addContentNode collection node s)).
Proof.
  destruct (GridsomeStore.findNode s collection (item_id (item node)))
    as [existingNode|] eqn:Hfind.
  - rewrite (addContentNode_found _ _ _ _ Hfind). apply steps_refl.
  - rewrite (addContentNode_fresh _ _ _ Hfind). cbn [snd].
    eapply steps_trans;
      [apply (steps_weaken (resolveCall collection node));
       [intros c Hc; now left|apply steps_resolve]|].
    eapply steps_trans; [apply steps_addNode; right; now left|].
    destruct (negb (isComponent (item node))); [|apply steps_refl].
    apply (steps_weaken (itemLinkCall (item node)));
      [|apply steps_addItemLinkNode].
    intros c Hc. do 2 right. exact Hc.
Qed.

Lemma nodesOf_applyCall_keeps collection c s :
  keepsNodes collection c ->
  nodesOf (applyCall c s) collection = nodesOf s collection.
Proof.
  intros [Hcoll Hnode]. unfold nodesOf.
  destruct c as [tn|c0 f t|c0 n|tn]; simpl.
  - rewrite lookup_insert_ne; [reflexivity|congruence].
  - rewrite lookup_alter. case_decide; [subst|reflexivity].
    now destruct (collections s !! collection).
  - rewrite lookup_alter_ne; [reflexivity|].
    intros ->. now apply (Hnode n).
  - reflexivity.
Qed.

Lemma nodesOf_replay_keeps collection l s :
  Forall (keepsNodes collection) l ->
  nodesOf (replay l s) collection = nodesOf s collection.
Proof.
  intros Hl. revert s. induction Hl as [|c l Hc _ IH]; intros s.
  - reflexivity.
  - unfold replay in *. simpl. rewrite IH.
    now apply nodesOf_applyCall_keeps.
Qed.

Lemma nodesOf_steps_keeps collection s s' :
  steps (keepsNodes collection) s s' ->
  nodesOf s' collection = nodesOf s collection.
Proof. intros [_ (l & -> & Hl)]. now apply nodesOf_replay_keeps. Qed.

Lemma schemaResolvers_steps_keeps s s' :
  steps keepsResolvers s s' -> schemaResolvers s' = schemaResolvers s.
Proof.
  intros [_ (l & -> & Hl)]. revert s.
  induction Hl as [|c l Hc _ IH]; intros s; [reflexivity|].
  unfold replay in *. simpl. rewrite IH.
  destruct c; try reflexivity. now destruct (Hc typeName).
Qed.

Lemma resolveCall_keepsNodes collection node c0 c :
  c0 <> assetTypeName -> resolveCall collection node c -> keepsNodes c0 c.
Proof.
  intros Hne [(f & first & rest & _ & _ & ->)
             |[(f & _ & ->)
              |[->|[(f & a & _ & _ & ->)|(f & _ & ->)]]]];
    split; try discriminate; try congruence; intros n; congruence.
Qed.

Lemma itemLinkCall_keepsNodes node c0 c :
  c0 <> itemLinkTypeName -> itemLinkCall node c -> keepsNodes c0 c.
Proof.
  intros Hne [->| ->]; split; try discriminate; try congruence;
    intros n; congruence.
Qed.

Lemma contentNodeCall_keepsResolvers collection node c :
  contentNodeCall collection node c -> keepsResolvers c.
Proof.
  intros [[(f & first & rest & _ & _ & ->)
          |[(f & _ & ->)
           |[->|[(f & a & _ & _ & ->)|(f & _ & ->)]]]]
         |[->|[->| ->]]]; intros tn; discriminate.
Qed.

Lemma findNode_nodesOf s collection id :
  GridsomeStore.findNode s collection id =
  find (fun n => bool_decide (node_id n = id)) (nodesOf s collection).
Proof.
  unfold GridsomeStore.findNode, nodesOf.
  now destruct (collections s !! collection).
Qed.

Lemma find_app_None {A} (p : A -> bool) l k :
  find p l = None -> find p (l ++ k) = find p k.
Proof.
  induction l as [|y l IH]; simpl; [reflexivity|].
  destruct (p y); [discriminate|exact IH].
Qed.

Lemma find_is_Some {A} (p : A -> bool) l x :
  x ∈ l -> p x = true -> is_Some (find p l).
Proof.
  induction 1 as [x l|x y l _ IH]; simpl; intros Hp.
  - rewrite Hp. eauto.
  - destruct (p y); [eauto|now apply IH].
Qed.



(** After [addContentNode] the collection holds a node with the id. *)
Lemma addContentNode_present collection node s :
  hasCollection s collection ->
  is_Some (GridsomeStore.findNode (snd (addContentNode collection node s))
                                  collection (item_id (item node))).
Proof.
  intros Hc.
  destruct (GridsomeStore.findNode s collection (item_id (item node)))
    as [existingNode|] eqn:Hfind.
  - rewrite (addContentNode_found _ _ _ _ Hfind). simpl. rewrite Hfind. eauto.
  - rewrite (addContentNode_fresh _ _ _ Hfind). cbn [snd].
    set (s3 := addAssetFields _ _ _).
    set (s4 := GridsomeStore.addNode collection (NItem (item node)) s3).
    assert (Hc3 : hasCollection s3 collection).
    { eapply hasCollection_extends; [|exact Hc]. apply steps_resolve. }
    assert (H4 : is_Some (GridsomeStore.findNode s4 collection
                            (item_id (item node)))).
    { rewrite findNode_nodesOf. unfold s4.
      rewrite (nodesOf_addNode _ _ _ Hc3).
      apply (find_is_Some _ _ (NItem (item node))).
      - apply elem_of_app. right. now left.
      - now apply bool_decide_eq_true. }
    destruct H4 as [n Hn]. exists n.
    destruct (negb (isComponent (item node))); [|exact Hn].
    eapply findNode_extends; [|exact Hn]. apply steps_addItemLinkNode.
Qed.

(** Away from the Asset and ItemLink collections, a fresh
    [addContentNode] adds its item at the end of the collection and
    nothing else to it. *)
Lemma nodesOf_addContentNode_fresh collection node s :
  hasCollection s collection ->
  collection <> assetTypeName ->
  collection <> itemLinkTypeName ->
  GridsomeStore.findNode s collection (item_id (item node)) = None ->
  nodesOf (snd (addContentNode collection node s)) collection =
  nodesOf s collection ++ [NItem (item node)].
Proof.
  intros Hc Hna Hnl Hfind.
  rewrite (addContentNode_fresh _ _ _ Hfind). cbn [snd].
  set (s3 := addAssetFields _ _ _).
  set (s4 := GridsomeStore.addNode collection (NItem (item node)) s3).
  assert (H3 : steps (resolveCall collection node) s s3)
    by apply steps_resolve.
  assert (Hn4 : nodesOf s4 collection =
                nodesOf s collection ++ [NItem (item node)]).
  { unfold s4. rewrite nodesOf_addNode.
    - f_equal. apply nodesOf_steps_keeps.
      eapply steps_weaken; [|exact H3].
      intros c. now apply resolveCall_keepsNodes.
    - eapply hasCollection_extends; [apply H3|exact Hc]. }
  destruct (negb (isComponent (item node))); [|exact Hn4].
  rewrite <- Hn4. apply nodesOf_steps_keeps.
  eapply steps_weaken; [|apply steps_addItemLinkNode].
  intros c. now apply itemLinkCall_keepsNodes.
Qed.


(** *** Lists of content items *)

Lemma contentNodeCall_item_insertion collection node c0 it :
  contentNodeCall collection node (CallAddNode c0 (NItem it)) ->
  c0 = collection /\ it = item node.
Proof.
  intros [[(f & first & rest & _ & _ & H)
          |[(f & _ & H)
           |[H|[(f & a & _ & _ & H)|(f & _ & H)]]]]
         |[H|[H|H]]]; try discriminate.
  injection H as -> ->. now split.
Qed.

Lemma steps_addContentItemNode node s :
  steps (fun c => keepsResolvers c /\ insertsAbsentItems s c)
        s (addContentItemNode node s).
Proof.
  unfold addContentItemNode.
  set (typeName := item_typeName (item node)).
  set (s1 := getCollection typeName s).
  assert (H1 : steps (fun c => keepsResolvers c /\ insertsAbsentItems s c)
                     s s1).
  { apply steps_getCollection. split; [intros tn|intros c0 it]; discriminate. }
  apply (steps_trans _ _ s1); [exact H1|].
  destruct (GridsomeStore.findNode s1 typeName (item_id (item node)))
    as [existingNode|] eqn:Hfind.
  - rewrite (addContentNode_found _ _ _ _ Hfind). apply steps_refl.
  - eapply steps_weaken; [|apply steps_addContentNode].
    intros c Hc. split; [eapply contentNodeCall_keepsResolvers, Hc|].
    intros c0 it ->.
    apply contentNodeCall_item_insertion in Hc as [-> ->].
    eapply findNode_extends_None; [apply H1|exact Hfind].
Qed.

Lemma steps_addContentItemNodes l s :
  steps (fun c => keepsResolvers c /\ insertsAbsentItems s c)
        s (addContentItemNodes l s).
Proof.
  revert s. induction l as [|node l IH]; intros s.
  - apply steps_refl.
  - unfold addContentItemNodes in *. simpl.
    pose proof (steps_addContentItemNode node s) as H1.
    eapply steps_trans; [exact H1|].
    eapply steps_weaken; [|apply IH].
    intros c [Hr Hi]. split; [exact Hr|].
    intros c0 it Hc.
    eapply findNode_extends_None; [apply H1|now apply Hi].
Qed.

Lemma addContentItemNode_present node s :
  present (addContentItemNode node s) node.
Proof.
  unfold addContentItemNode, present.
  apply addContentNode_present, hasCollection_getCollection.
Qed.

Lemma addContentItemNodes_present l s node :
  node ∈ l -> present (addContentItemNodes l s) node.
Proof.
  revert s. induction l as [|n l IH]; intros s Hin; [inversion Hin|].
  unfold addContentItemNodes in *. simpl.
  apply elem_of_cons in Hin as [->|Hin]; [|now apply IH].
  eapply present_extends; [|apply addContentItemNode_present].
  apply (steps_addContentItemNodes l).
Qed.

Lemma addContentItemNodes_app l1 l2 s :
  addContentItemNodes (l1 ++ l2) s =
  addContentItemNodes l2 (addContentItemNodes l1 s).
Proof. unfold addContentItemNodes. apply foldl_app. Qed.

Lemma addContentNodes_items content s :
  content_items content <> [] ->
  addContentNodes content s =
  addContentItemNodes (content_items content)
    (addContentItemNodes (map snd (content_linkedItems content)) s).
Proof.
  intros Hne. unfold addContentNodes.
  destruct (content_items content) as [|i items]; [contradiction|].
  cbn [length Nat.eqb].
  now destruct (map snd (content_linkedItems content)).
Qed.

Lemma addContentNodes_nodesOfContent content s :
  addContentNodes content s =
  addContentItemNodes (nodesOfContent content) s.
Proof.
  unfold nodesOfContent.
  destruct (content_items content) as [|i items] eqn:Hitems.
  - unfold addContentNodes. now rewrite Hitems.
  - rewrite addContentItemNodes_app, <- Hitems.
    apply addContentNodes_items. now rewrite Hitems.
Qed.

(** C6: when a content type has content items, [addContentNodes] first
    runs [addContentItemNodes] on all the linked items and only then on
    the content items.  When the second run starts every linked item is
    present in its collection, and no call of the second run inserts a
    content item under the collection and id of a linked item. *)
Theorem linked_items_before_content_items content s :
  content_items content <> [] ->
  let linked := map snd (content_linkedItems content) in
  let s_mid := addContentItemNodes linked s in
  let s_end := addContentNodes content s in
  s_end = addContentItemNodes (content_items content) s_mid /\
  (forall node, node ∈ linked -> present s_mid node) /\
  calls s_end = calls s ++ newCalls s s_mid ++ newCalls s_mid s_end /\
  (forall node it,
      node ∈ linked ->
      item_id it = item_id (item node) ->
      CallAddNode (item_typeName (item node)) (NItem it)
        ∉ newCalls s_mid s_end).
Proof.
  intros Hne linked s_mid s_end.
  assert (Hend : s_end = addContentItemNodes (content_items content) s_mid)
    by now apply addContentNodes_items.
  assert (Hpresent : forall node, node ∈ linked -> present s_mid node)
    by (intros node Hin; now apply addContentItemNodes_present).
  pose proof (steps_addContentItemNodes linked s) as Hmid.
  pose proof (steps_addContentItemNodes (content_items content) s_mid)
    as Hsteps.
  fold s_mid in Hmid. rewrite <- Hend in Hsteps.
  split; [exact Hend|]. split; [exact Hpresent|]. split.
  - rewrite (extends_calls_app _ _ (proj1 Hsteps)).
    rewrite (extends_calls_app _ _ (proj1 Hmid)).
    now rewrite app_assoc.
  - intros node it Hin Hid Hcall.
    pose proof (emits_newCalls _ _ _ (proj2 Hsteps)) as Hall.
    rewrite Forall_forall in Hall.
    destruct (Hall _ Hcall) as [_ Habsent].
    specialize (Habsent _ _ eq_refl).
    destruct (Hpresent node Hin) as [n Hn].
    unfold present in Hn. rewrite Hid in Habsent. congruence.
Qed.

(** *** Methods that may throw *)

Lemma steps_bind {A B} P (m : Eff A) (k : A -> Eff B) s :
  steps P s (snd (m s)) ->
  (forall a s', steps P s' (snd (k a s'))) ->
  steps P s (snd (bind m k s)).
Proof.
  intros Hm Hk. unfold bind. destruct (m s) as [[a|e] s1]; simpl in *.
  - eapply steps_trans; [exact Hm|apply Hk].
  - exact Hm.
Qed.

Lemma steps_forEach {A} P (body : A -> Eff unit) l :
  (forall x s, x ∈ l -> steps P s (snd (body x s))) ->
  forall s, steps P s (snd (forEach body l s)).
Proof.
  induction l as [|x l IH]; intros Hbody s; simpl.
  - apply steps_refl.
  - apply steps_bind; [apply Hbody; now left|].
    intros _ s'. apply IH. intros y s'' Hy. apply Hbody. now right.
Qed.

Lemma forEach_lift {A} (f : A -> Store -> Store) l s :
  forEach (fun x => lift (f x)) l s =
  (Returned tt, foldl (fun s x => f x s) s l).
Proof.
  revert s. induction l as [|x l IH]; intros s; simpl; [reflexivity|].
  unfold bind, lift at 1. now rewrite IH.
Qed.

Lemma steps_addTaxonomyTermNode collection t s :
  steps (taxonomyGroupCall collection)
        s (snd (addTaxonomyTermNode collection t s)).
Proof.
  revert s.
  induction t as [i n sl|i n sl children IH] using Term_forest_ind;
    intros s; [apply steps_refl|].
  rewrite addTaxonomyTermNode_eq. cbn [term_terms].
  rewrite addTaxonomyTermNodes_forEach.
  apply steps_bind.
  - apply steps_addNode. right. right. eauto.
  - intros _ s'. apply steps_forEach. intros t s'' Ht.
    rewrite Forall_forall in IH. now apply IH.
Qed.

Lemma steps_addTaxonomyGroupNode taxonomyItem s :
  steps (taxonomyGroupCall (taxonomy_typeName taxonomyItem))
        s (snd (addTaxonomyGroupNode taxonomyItem s)).
Proof.
  unfold addTaxonomyGroupNode.
  apply steps_bind; [apply steps_getCollection; now left|].
  intros _ s1.
  apply steps_bind; [apply steps_addReference; right; now left|].
  intros _ s2.
  destruct (taxonomy_terms taxonomyItem) as [ts|]; [|apply steps_refl].
  rewrite addTaxonomyTermNodes_forEach.
  apply steps_forEach. intros t s3 _. apply steps_addTaxonomyTermNode.
Qed.

Lemma steps_addTaxonomyGroupNodes taxonomies s :
  steps (fun c => exists taxonomyItem,
             taxonomyItem ∈ taxonomies /\
             taxonomyGroupCall (taxonomy_typeName taxonomyItem) c)
        s (snd (addTaxonomyGroupNodes taxonomies s)).
Proof.
  unfold addTaxonomyGroupNodes. apply steps_forEach.
  intros taxonomyItem s' Hin.
  eapply steps_weaken; [|apply steps_addTaxonomyGroupNode].
  intros c Hc. now exists taxonomyItem.
Qed.

Lemma addTaxonomyGroupNodes_returns taxonomies s :
  forallb wellFormedTaxonomy taxonomies = true ->
  fst (addTaxonomyGroupNodes taxonomies s) = Returned tt.
Proof.
  unfold addTaxonomyGroupNodes.
  revert s. induction taxonomies as [|ti l IH]; intros s Hwf.
  - reflexivity.
  - cbn [forallb] in Hwf. apply andb_prop in Hwf as [Hti Hl].
    cbn [forEach]. unfold bind at 1.
    assert (Hgroup : fst (addTaxonomyGroupNode ti s) = Returned tt).
    { unfold addTaxonomyGroupNode, bind, lift.
      unfold wellFormedTaxonomy in Hti.
      destruct (taxonomy_terms ti) as [ts|]; [|discriminate].
      now rewrite (addTaxonomyTermNodes_preorder _ _ _ Hti). }
    destruct (addTaxonomyGroupNode ti s) as [o s1]. simpl in Hgroup.
    subst o. now apply IH.
Qed.

Lemma foldl_addContentNodes (getContent : string -> Content)
      (codenames : list string) s :
  foldl (fun s codename => addContentNodes (getContent codename) s)
        s codenames =
  addContentItemNodes
    (flat_map (fun codename => nodesOfContent (getContent codename))
              codenames) s.
Proof.
  revert s. induction codenames as [|c l IH]; intros s; simpl.
  - reflexivity.
  - now rewrite IH, addContentItemNodes_app,
      addContentNodes_nodesOfContent.
Qed.

(** [load] returns when no taxonomy term list is missing, and what it
    leaves then is [loaded]. *)
Lemma load_loaded deliveryClient s :
  forallb wellFormedTaxonomy (client_taxonomies deliveryClient) = true ->
  load deliveryClient s = (Returned tt, loaded deliveryClient s).
Proof.
  intros Hwf. unfold load, loaded. unfold bind at 1.
  pose proof (addTaxonomyGroupNodes_returns _ s Hwf) as Hret.
  destruct (addTaxonomyGroupNodes _ s) as [o s1]. simpl in Hret. subst o.
  unfold bind. rewrite forEach_lift. unfold lift. cbn [snd].
  now rewrite foldl_addContentNodes.
Qed.

(** *** The Asset collection *)

Lemma nodesOf_getCollection typeName s collection :
  nodesOf (getCollection typeName s) collection = nodesOf s collection.
Proof.
  destruct (getCollection_cases typeName s) as [[_ ->]|[Hnone ->]];
    [reflexivity|].
  unfold nodesOf. simpl.
  destruct (decide (typeName = collection)) as [->|Hne].
  - now rewrite lookup_insert_eq, Hnone.
  - now rewrite lookup_insert_ne.
Qed.

Lemma dataLength_nodesOf s collection :
  GridsomeStore.dataLength s collection = length (nodesOf s collection).
Proof.
  unfold GridsomeStore.dataLength, nodesOf.
  now destruct (collections s !! collection).
Qed.

Lemma addAssetSchemaResolvers_cases s :
  let s1 := getCollection assetTypeName s in
  (nodesOf s1 assetTypeName = [] /\ addAssetSchemaResolvers s = s1) \/
  (nodesOf s1 assetTypeName <> [] /\
   addAssetSchemaResolvers s =
   GridsomeStore.addSchemaResolvers assetTypeName s1).
Proof.
  intros s1. unfold addAssetSchemaResolvers. fold s1.
  rewrite dataLength_nodesOf.
  destruct (nodesOf s1 assetTypeName); simpl; [left|right]; easy.
Qed.

Lemma nodesOf_addAssetSchemaResolvers s collection :
  nodesOf (addAssetSchemaResolvers s) collection = nodesOf s collection.
Proof.
  destruct (addAssetSchemaResolvers_cases s) as [[_ ->]|[_ ->]];
    apply nodesOf_getCollection.
Qed.

Lemma steps_before_resolvers deliveryClient s :
  steps keepsResolvers s
    (addContentItemNodes (nodesOfClient deliveryClient)
       (snd (addTaxonomyGroupNodes (client_taxonomies deliveryClient) s))).
Proof.
  eapply steps_trans.
  - eapply steps_weaken; [|apply steps_addTaxonomyGroupNodes].
    intros c (ti & _ & [->|[->|[t ->]]]) tn; discriminate.
  - eapply steps_weaken; [|apply steps_addContentItemNodes].
    now intros c [Hc _].
Qed.

(** C10: the Asset collection comes into being as a side effect, and
    is never made anew.  The asset pass gets or creates it before it looks
    at any asset field, so also for a node without asset fields, and keeps
    the nodes it held; so does every resolution of a new content node.
    The schema-resolver pass gets or creates it before it tests for
    emptiness: it leaves every collection with the nodes it had, keeps the
    collections it found as they were, and registers the resolvers of the
    Asset type exactly when the collection holds a node.  After [load] the
    collection exists with the nodes that the content items left in it,
    and resolvers were registered exactly when it is not empty. *)
Theorem asset_collection_side_effect :
  (forall collection node s,
      hasCollection (addAssetFields collection node s) assetTypeName /\
      nodesOf s assetTypeName
        `prefix_of` nodesOf (addAssetFields collection node s)
                            assetTypeName /\
      (assetFields node = [] ->
       addAssetFields collection node s = getCollection assetTypeName s) /\
      (collections s !! assetTypeName = None ->
       exists rest,
         newCalls s (addAssetFields collection node s) =
         CallAddCollection assetTypeName :: rest)) /\
  (forall collection node s,
      GridsomeStore.findNode s collection (item_id (item node)) = None ->
      hasCollection (snd (addContentNode collection node s)) assetTypeName) /\
  (forall s,
      hasCollection (addAssetSchemaResolvers s) assetTypeName /\
      (forall c, nodesOf (addAssetSchemaResolvers s) c = nodesOf s c) /\
      (forall c col,
          collections s !! c = Some col ->
          collections (addAssetSchemaResolvers s) !! c = Some col) /\
      (collections s !! assetTypeName = None ->
       addAssetSchemaResolvers s =
       GridsomeStore.addCollection assetTypeName s) /\
      (nodesOf s assetTypeName = [] ->
       addAssetSchemaResolvers s = getCollection assetTypeName s /\
       schemaResolvers (addAssetSchemaResolvers s) = schemaResolvers s) /\
      (nodesOf s assetTypeName <> [] ->
       addAssetSchemaResolvers s =
       GridsomeStore.addSchemaResolvers assetTypeName s)) /\
  (forall deliveryClient s,
      forallb wellFormedTaxonomy (client_taxonomies deliveryClient) = true ->
      exists s',
        load deliveryClient s = (Returned tt, s') /\
        hasCollection s' assetTypeName /\
        (forall c,
            nodesOf s' c =
            nodesOf (addContentItemNodes (nodesOfClient deliveryClient)
                       (snd (addTaxonomyGroupNodes
                               (client_taxonomies deliveryClient) s))) c) /\
        (nodesOf s' assetTypeName = [] ->
         schemaResolvers s' = schemaResolvers s) /\
        (nodesOf s' assetTypeName <> [] ->
         schemaResolvers s' = schemaResolvers s ++ [assetTypeName])).
Proof.
  assert (Hfields : forall collection node s,
             extends (getCollection assetTypeName s)
                     (addAssetFields collection node s)).
  { intros. unfold addAssetFields.
    apply extends_foldl. intros. apply extends_addAssetField. }
  assert (Hprefix : forall s0 s1 c,
             extends s0 s1 -> nodesOf s0 c `prefix_of` nodesOf s1 c).
  { intros s0 s1 c [Hcoll _ _]. unfold nodesOf.
    destruct (collections s0 !! c) as [col|] eqn:Hs; [|apply prefix_nil].
    now destruct (Hcoll _ _ Hs) as (c' & -> & Hd & _). }
  assert (Hkept : forall typeName s c col,
             collections s !! c = Some col ->
             collections (getCollection typeName s) !! c = Some col).
  { intros typeName s c col Hc.
    destruct (getCollection_cases typeName s) as [[_ ->]|[Hnone ->]];
      [exact Hc|].
    simpl. rewrite lookup_insert_ne; [exact Hc|congruence]. }
  split; [|split; [|split]].
  - intros collection node s. split; [|split; [|split]].
    + eapply hasCollection_extends; [apply Hfields|].
      apply hasCollection_getCollection.
    + apply Hprefix. eapply extends_trans; [|apply Hfields].
      apply extends_getCollection.
    + unfold addAssetFields. now intros ->.
    + intros Hnone.
      rewrite (newCalls_trans s (getCollection assetTypeName s));
        [|apply extends_getCollection|apply Hfields].
      unfold getCollection at 1, GridsomeStore.getCollection.
      rewrite Hnone. erewrite newCalls_app by reflexivity.
      simpl. eauto.
  - intros collection node s Hfind.
    rewrite (addContentNode_fresh _ _ _ Hfind). cbn [snd].
    set (s2 := addTaxonomyFields _ _ _).
    set (s3 := addAssetFields collection node s2).
    assert (H3 : hasCollection s3 assetTypeName).
    { eapply hasCollection_extends; [apply Hfields|].
      apply hasCollection_getCollection. }
    eapply hasCollection_extends; [|exact H3].
    eapply extends_trans; [apply extends_addNode|].
    destruct (negb (isComponent (item node))); [|apply extends_refl].
    apply steps_addItemLinkNode.
  - intros s. split; [|split; [|split; [|split; [|split]]]].
    + destruct (addAssetSchemaResolvers_cases s) as [[_ ->]|[_ ->]].
      * apply hasCollection_getCollection.
      * eapply hasCollection_extends; [apply extends_addSchemaResolvers|].
        apply hasCollection_getCollection.
    + intros c. apply nodesOf_addAssetSchemaResolvers.
    + intros c col Hc.
      destruct (addAssetSchemaResolvers_cases s) as [[_ ->]|[_ ->]];
        [|simpl]; now apply Hkept.
    + intros Hnone.
      destruct (addAssetSchemaResolvers_cases s) as [[_ ->]|[Hne _]].
      * unfold getCollection, GridsomeStore.getCollection.
        now rewrite Hnone.
      * exfalso. apply Hne. rewrite nodesOf_getCollection.
        unfold nodesOf. now rewrite Hnone.
    + intros Hempty.
      destruct (addAssetSchemaResolvers_cases s) as [[_ ->]|[Hne _]].
      * split; [reflexivity|].
        destruct (getCollection_cases assetTypeName s)
          as [[_ ->]|[_ ->]]; reflexivity.
      * exfalso. apply Hne. now rewrite nodesOf_getCollection.
    + intros Hnonempty.
      destruct (addAssetSchemaResolvers_cases s) as [[He _]|[_ ->]].
      * exfalso. apply Hnonempty. now rewrite nodesOf_getCollection in He.
      * f_equal.
        destruct (getCollection_cases assetTypeName s)
          as [[_ Hsame]|[Hnone _]]; [exact Hsame|].
        exfalso. apply Hnonempty. unfold nodesOf. now rewrite Hnone.
  - intros deliveryClient s Hwf. exists (loaded deliveryClient s).
    split; [now apply load_loaded|].
    unfold loaded, addSchemaResolvers.
    set (s2 := addContentItemNodes _ _).
    assert (Hres : schemaResolvers (getCollection assetTypeName s2) =
                   schemaResolvers s).
    { transitivity (schemaResolvers s2).
      - destruct (getCollection_cases assetTypeName s2)
          as [[_ ->]|[_ ->]]; reflexivity.
      - apply schemaResolvers_steps_keeps, steps_before_resolvers. }
    split; [|split; [intros c; apply nodesOf_addAssetSchemaResolvers|]].
    + destruct (addAssetSchemaResolvers_cases s2) as [[_ ->]|[_ ->]].
      * apply hasCollection_getCollection.
      * eapply hasCollection_extends; [apply extends_addSchemaResolvers|].
        apply hasCollection_getCollection.
    + destruct (addAssetSchemaResolvers_cases s2) as [[He ->]|[Hne ->]].
      * split; [now intros _|]. intros Hne. contradiction.
      * split; [intros He; contradiction|].
        intros _. simpl. now rewrite Hres.
Qed.

(** *** Assets are inserted once *)

Lemma nodesOf_extends s s' collection :
  extends s s' -> nodesOf s collection `prefix_of` nodesOf s' collection.
Proof.
  intros [Hc _ _]. unfold nodesOf.
  destruct (collections s !! collection) as [c|] eqn:Hs;
    [|apply prefix_nil].
  now destruct (Hc _ _ Hs) as (c' & -> & Hd & _).
Qed.

Lemma assetIds_extends s s' id :
  extends s s' -> id ∈ assetIds s -> id ∈ assetIds s'.
Proof.
  intros Hext. unfold assetIds.
  destruct (nodesOf_extends s s' assetTypeName Hext) as [k ->].
  rewrite map_app, elem_of_app. now left.
Qed.

Lemma find_node_id_None l id :
  find (fun n => bool_decide (node_id n = id)) l = None <->
  id ∉ map node_id l.
Proof.
  induction l as [|n l IH]; simpl.
  - split; [intros _ H; inversion H|reflexivity].
  - rewrite not_elem_of_cons.
    destruct (bool_decide (node_id n = id)) eqn:Hb.
    + apply bool_decide_eq_true in Hb.
      split; [discriminate|]. intros [Hne _]. congruence.
    + apply bool_decide_eq_false in Hb. rewrite IH.
      split; [intros H; split; [congruence|exact H]|now intros [_ H]].
Qed.

Lemma filter_id_notin l id :
  id ∉ map node_id l -> filter (fun n => node_id n = id) l = [].
Proof.
  induction l as [|n l IH]; simpl; [reflexivity|].
  rewrite not_elem_of_cons. intros [Hne Hl].
  rewrite filter_cons, decide_False by congruence. now apply IH.
Qed.

Lemma count_NoDup_ids l id :
  NoDup (map node_id l) ->
  length (filter (fun n => node_id n = id) l) <= 1 /\
  (id ∈ map node_id l ->
   length (filter (fun n => node_id n = id) l) = 1).
Proof.
  induction l as [|n l IH]; simpl; intros Hnd.
  - split; [lia|]. intros H. inversion H.
  - apply NoDup_cons in Hnd as [Hn Hnd]. rewrite filter_cons.
    destruct (decide (node_id n = id)) as [<-|Hne].
    + rewrite (filter_id_notin _ _ Hn). simpl. split; [lia|reflexivity].
    + destruct (IH Hnd) as [Hle Heq]. split; [exact Hle|].
      rewrite elem_of_cons. intros [Hid|Hin]; [congruence|now apply Heq].
Qed.

Lemma addAsset_once a s :
  hasCollection s assetTypeName ->
  NoDup (assetIds s) ->
  NoDup (assetIds (addAsset assetTypeName a s)) /\
  asset_id a ∈ assetIds (addAsset assetTypeName a s).
Proof.
  intros Hc Hnd. unfold addAsset.
  destruct (GridsomeStore.findNode s assetTypeName (asset_id a))
    as [n|] eqn:Hfind.
  - split; [exact Hnd|].
    destruct (decide (asset_id a ∈ assetIds s)) as [Hin|Hout];
      [exact Hin|].
    apply find_node_id_None in Hout.
    rewrite findNode_nodesOf in Hfind. congruence.
  - rewrite findNode_nodesOf, find_node_id_None in Hfind.
    unfold assetIds. rewrite (nodesOf_addNode _ _ _ Hc), map_app. simpl.
    split.
    + apply NoDup_app. split; [exact Hnd|]. split.
      * intros x Hx Hx'. apply list_elem_of_singleton in Hx'. now subst.
      * apply NoDup_singleton.
    + apply elem_of_app. right. now left.
Qed.

Lemma foldl_once {A} (f : Store -> A -> Store) (ids : A -> list string) l :
  (forall s x, extends s (f s x)) ->
  (forall s x, x ∈ l ->
     hasCollection s assetTypeName -> NoDup (assetIds s) ->
     NoDup (assetIds (f s x)) /\
     forall id, id ∈ ids x -> id ∈ assetIds (f s x)) ->
  forall s,
    hasCollection s assetTypeName -> NoDup (assetIds s) ->
    NoDup (assetIds (foldl f s l)) /\
    forall x id, x ∈ l -> id ∈ ids x -> id ∈ assetIds (foldl f s l).
Proof.
  intros Hext. induction l as [|x l IH]; intros Hf s Hc Hnd; simpl.
  - split; [exact Hnd|]. intros x id Hx. inversion Hx.
  - destruct (Hf s x) as [Hnd1 Hin1]; [now left|assumption..|].
    destruct (IH (fun s y Hy => Hf s y (list_elem_of_further _ _ _ Hy))
                 (f s x)) as [Hnd2 Hin2];
      [eapply hasCollection_extends; [apply Hext|exact Hc]|exact Hnd1|].
    split; [exact Hnd2|].
    intros y id Hy Hid. apply elem_of_cons in Hy as [->|Hy].
    + eapply assetIds_extends; [now apply extends_foldl|now apply Hin1].
    + now apply (Hin2 y).
Qed.

Lemma assetIds_addReference collection fieldName typeName s :
  assetIds (GridsomeStore.addReference collection fieldName typeName s)
  = assetIds s.
Proof.
  unfold assetIds. f_equal.
  apply (nodesOf_applyCall_keeps _ (CallAddReference _ _ _)).
  split; [discriminate|intros n; discriminate].
Qed.

Lemma addAssetField_once collection f s :
  hasCollection s assetTypeName ->
  NoDup (assetIds s) ->
  NoDup (assetIds (addAssetField assetTypeName collection f s)) /\
  forall id, id ∈ map asset_id (assets f) ->
             id ∈ assetIds (addAssetField assetTypeName collection f s).
Proof.
  intros Hc Hnd. unfold addAssetField. rewrite assetIds_addReference.
  destruct (foldl_once (fun s a => addAsset assetTypeName a s)
                       (fun a => [asset_id a]) (assets f))
    with (s := s) as [Hnd' Hin'];
    [intros; apply extends_addAsset| |assumption..|].
  - intros s0 a _ Hc0 Hnd0.
    destruct (addAsset_once a s0 Hc0 Hnd0) as [H1 H2].
    split; [exact H1|]. intros id Hid.
    apply list_elem_of_singleton in Hid. now subst.
  - split; [exact Hnd'|]. intros id Hid.
    apply list_elem_of_fmap in Hid as (a & -> & Ha).
    apply (Hin' a); [exact Ha|now left].
Qed.

Lemma addAssetFields_once collection node s :
  NoDup (assetIds s) ->
  NoDup (assetIds (addAssetFields collection node s)) /\
  forall a, a ∈ assetsOf node ->
            asset_id a ∈ assetIds (addAssetFields collection node s).
Proof.
  intros Hnd. unfold addAssetFields.
  destruct (foldl_once
              (fun s f => addAssetField assetTypeName collection f s)
              (fun f => map asset_id (assets f)) (assetFields node))
    with (s := getCollection assetTypeName s) as [Hnd' Hin'].
  - intros. apply extends_addAssetField.
  - intros s0 f _ Hc0 Hnd0. now apply addAssetField_once.
  - apply hasCollection_getCollection.
  - unfold assetIds. now rewrite nodesOf_getCollection.
  - split; [exact Hnd'|]. intros a Ha.
    unfold assetsOf in Ha. apply list_elem_of_In, in_flat_map in Ha.
    destruct Ha as (f & Hf & Ha).
    apply (Hin' f); [now apply list_elem_of_In|].
    apply list_elem_of_fmap_2. now apply list_elem_of_In.
Qed.

Lemma reference_keepsNodes collection fieldName typeName c0 :
  keepsNodes c0 (CallAddReference collection fieldName typeName).
Proof. split; [discriminate|intros n; discriminate]. Qed.

Lemma contentNodeCall_keepsNodes collection node c0 c :
  c0 <> collection -> c0 <> assetTypeName -> c0 <> itemLinkTypeName ->
  contentNodeCall collection node c -> keepsNodes c0 c.
Proof.
  intros Hc Ha Hl [Hr|[->|Hi]].
  - now apply (resolveCall_keepsNodes collection node).
  - split; [discriminate|intros n; congruence].
  - now apply (itemLinkCall_keepsNodes (item node)).
Qed.

Lemma taxonomyGroupCall_keepsNodes typeName c0 c :
  typeName <> c0 -> taxonomyGroupCall typeName c -> keepsNodes c0 c.
Proof.
  intros Hne [->|[->|[t ->]]]; split;
    try discriminate; try congruence; intros n; congruence.
Qed.

Lemma assetIds_steps_keeps s s' :
  steps (keepsNodes assetTypeName) s s' -> assetIds s' = assetIds s.
Proof. intros H. unfold assetIds. now rewrite (nodesOf_steps_keeps _ _ _ H). Qed.

Lemma addContentNode_once collection node s :
  collection <> assetTypeName ->
  assetTypeName <> itemLinkTypeName ->
  NoDup (assetIds s) ->
  NoDup (assetIds (snd (addContentNode collection node s))) /\
  (GridsomeStore.findNode s collection (item_id (item node)) = None ->
   forall a, a ∈ assetsOf node ->
             asset_id a ∈ assetIds (snd (addContentNode collection node s))).
Proof.
  intros Hca Hal Hnd.
  destruct (GridsomeStore.findNode s collection (item_id (item node)))
    as [existingNode|] eqn:Hfind.
  - rewrite (addContentNode_found _ _ _ _ Hfind).
    split; [exact Hnd|discriminate].
  - rewrite (addContentNode_fresh _ _ _ Hfind). cbn [snd].
    set (s1 := addLinkedItemFields collection node s).
    set (s2 := addTaxonomyFields collection node s1).
    set (s3 := addAssetFields collection node s2).
    set (s4 := GridsomeStore.addNode collection (NItem (item node)) s3).
    assert (H2 : assetIds s2 = assetIds s).
    { apply assetIds_steps_keeps. apply (steps_trans _ _ s1).
      - eapply steps_weaken; [|apply steps_addLinkedItemFields].
        intros c (f & first & rest & _ & _ & ->).
        apply reference_keepsNodes.
      - eapply steps_weaken; [|apply steps_addTaxonomyFields].
        intros c (f & _ & ->). apply reference_keepsNodes. }
    destruct (addAssetFields_once collection node s2) as [Hnd3 Hin3];
      [now rewrite H2|]. fold s3 in Hnd3, Hin3.
    assert (H4 : assetIds s4 = assetIds s3).
    { unfold assetIds, s4. now rewrite nodesOf_addNode_ne. }
    assert (H5 : assetIds (if negb (isComponent (item node))
                           then addItemLinkNode (item node) s4 else s4)
                 = assetIds s3).
    { destruct (negb (isComponent (item node))); [|exact H4].
      rewrite <- H4. apply assetIds_steps_keeps.
      eapply steps_weaken; [|apply steps_addItemLinkNode].
      intros c. now apply itemLinkCall_keepsNodes. }
    rewrite H5. split; [exact Hnd3|]. intros _. exact Hin3.
Qed.

Lemma addContentItemNodes_NoDup l s :
  Forall (fun node => item_typeName (item node) <> assetTypeName) l ->
  assetTypeName <> itemLinkTypeName ->
  NoDup (assetIds s) ->
  NoDup (assetIds (addContentItemNodes l s)).
Proof.
  intros Hl Hal. revert s.
  induction Hl as [|m l Hm _ IH]; intros s Hnd; [exact Hnd|].
  unfold addContentItemNodes in *. simpl. apply IH.
  unfold addContentItemNode.
  apply addContentNode_once; [assumption..|].
  unfold assetIds. now rewrite nodesOf_getCollection.
Qed.

Lemma present_nodesOf s s' node :
  nodesOf s' (item_typeName (item node)) =
    nodesOf s (item_typeName (item node)) ->
  present s' node <-> present s node.
Proof. intros H. unfold present. now rewrite !findNode_nodesOf, H. Qed.

Lemma addContentItemNode_resolved nodes m s :
  entriesAgree nodes ->
  m ∈ nodes ->
  Forall (fun node => item_typeName (item node) <> assetTypeName /\
                      item_typeName (item node) <> itemLinkTypeName)
         nodes ->
  assetTypeName <> itemLinkTypeName ->
  NoDup (assetIds s) ->
  assetsResolved nodes s ->
  assetsResolved nodes (addContentItemNode m s).
Proof.
  intros Hagree Hm Hnames Hal Hnd Hres.
  rewrite Forall_forall in Hnames.
  unfold addContentItemNode.
  set (typeName := item_typeName (item m)).
  set (s1 := getCollection typeName s).
  assert (Hnd1 : NoDup (assetIds s1))
    by (unfold assetIds, s1; now rewrite nodesOf_getCollection).
  assert (Hres1 : assetsResolved nodes s1).
  { intros n a Hn Hp Ha. unfold assetIds, s1.
    rewrite nodesOf_getCollection. apply (Hres n a Hn); [|exact Ha].
    eapply present_nodesOf; [|exact Hp].
    unfold s1. now rewrite nodesOf_getCollection. }
  destruct (GridsomeStore.findNode s1 typeName (item_id (item m)))
    as [existingNode|] eqn:Hfind.
  { now rewrite (addContentNode_found _ _ _ _ Hfind). }
  destruct (Hnames m Hm) as [Hma Hml].
  destruct (addContentNode_once typeName m s1 Hma Hal Hnd1) as [_ Hin5].
  specialize (Hin5 Hfind).
  pose proof (steps_addContentNode typeName m s1) as Hsteps.
  pose proof (nodesOf_addContentNode_fresh typeName m s1
                (hasCollection_getCollection _ _) Hma Hml Hfind) as Hnodes.
  set (s5 := snd (addContentNode typeName m s1)) in *.
  intros n a Hn Hp Ha.
  destruct (GridsomeStore.findNode s1 (item_typeName (item n))
                                   (item_id (item n))) as [x|] eqn:Hold.
  - eapply assetIds_extends; [apply Hsteps|].
    apply (Hres1 n a Hn); [now exists x|exact Ha].
  - destruct (Hnames n Hn) as [Hna Hnl].
    destruct (decide (item_typeName (item n) = typeName)) as [Hty|Hty].
    + destruct Hp as [y Hy].
      rewrite findNode_nodesOf, Hty, Hnodes in Hy.
      rewrite find_app_None in Hy
        by (now rewrite <- findNode_nodesOf, <- Hty).
      simpl in Hy.
      destruct (bool_decide (item_id (item m) = item_id (item n)))
        eqn:Hb; [|discriminate].
      apply bool_decide_eq_true in Hb.
      apply Hin5. unfold assetsOf in *.
      now rewrite <- (Hagree n m Hn Hm Hty (eq_sym Hb)).
    + exfalso. destruct Hp as [y Hy].
      rewrite findNode_nodesOf in Hy, Hold.
      rewrite (nodesOf_steps_keeps (item_typeName (item n)) s1 s5) in Hy;
        [congruence|].
      eapply steps_weaken; [|exact Hsteps].
      intros c. now apply contentNodeCall_keepsNodes.
Qed.

Lemma addContentItemNodes_resolved nodes l s :
  entriesAgree nodes ->
  Forall (fun m => m ∈ nodes) l ->
  Forall (fun node => item_typeName (item node) <> assetTypeName /\
                      item_typeName (item node) <> itemLinkTypeName)
         nodes ->
  assetTypeName <> itemLinkTypeName ->
  NoDup (assetIds s) ->
  assetsResolved nodes s ->
  assetsResolved nodes (addContentItemNodes l s).
Proof.
  intros Hagree Hl Hnames Hal. revert s.
  induction Hl as [|m l Hm _ IH]; intros s Hnd Hres; [exact Hres|].
  unfold addContentItemNodes in *. simpl. apply IH.
  - apply (addContentItemNodes_NoDup [m]); [|assumption..].
    constructor; [|constructor].
    rewrite Forall_forall in Hnames. now apply Hnames.
  - now apply addContentItemNode_resolved.
Qed.

(** C5 (as the code has it): assets are inserted once per id under
    conditions.  When the Asset collection has a name of its own and holds
    no id twice to begin with, after [load] no id is held by more than one
    of its nodes.  When moreover the collections of item links, taxonomy
    terms and content items all have different names, the content entries
    were not in the store before, and copies of the same entry come with
    the same asset fields, each asset of each content node that [load]
    went through is held by exactly one node. *)
Theorem assets_inserted_once deliveryClient s :
  forallb wellFormedTaxonomy (client_taxonomies deliveryClient) = true ->
  assetNamesApart deliveryClient ->
  NoDup (assetIds s) ->
  exists s',
    load deliveryClient s = (Returned tt, s') /\
    (forall id, countId s' assetTypeName id <= 1) /\
    (namesApart deliveryClient ->
     (forall n, n ∈ nodesOfClient deliveryClient -> ~ present s n) ->
     entriesAgree (nodesOfClient deliveryClient) ->
     forall n a,
       n ∈ nodesOfClient deliveryClient -> a ∈ assetsOf n ->
       countId s' assetTypeName (asset_id a) = 1).
Proof.
  intros Hwf (Hal & Htax & Hcontent) Hnd.
  exists (loaded deliveryClient s). split; [now apply load_loaded|].
  unfold loaded, addSchemaResolvers.
  set (nodes := nodesOfClient deliveryClient) in *.
  set (s1 := snd (addTaxonomyGroupNodes _ s)).
  set (s2 := addContentItemNodes nodes s1).
  pose proof (steps_addTaxonomyGroupNodes
                (client_taxonomies deliveryClient) s) as Hsteps1.
  fold s1 in Hsteps1. rewrite Forall_forall in Htax.
  assert (Hkeep : forall c0,
             (forall ti, ti ∈ client_taxonomies deliveryClient ->
                         taxonomy_typeName ti <> c0) ->
             nodesOf s1 c0 = nodesOf s c0).
  { intros c0 Hc0. apply nodesOf_steps_keeps.
    eapply steps_weaken; [|exact Hsteps1].
    intros c (ti & Hti & Hc).
    eapply taxonomyGroupCall_keepsNodes; [|exact Hc]. now apply Hc0. }
  assert (Hnd1 : NoDup (assetIds s1))
    by (unfold assetIds; now rewrite (Hkeep assetTypeName Htax)).
  assert (Hnd2 : NoDup (assetIds s2))
    by now apply addContentItemNodes_NoDup.
  split.
  - intros id. unfold countId.
    rewrite nodesOf_addAssetSchemaResolvers.
    now apply count_NoDup_ids.
  - intros (_ & _ & Hnodes) Habsent Hagree n a Hn Ha.
    assert (Hnames : Forall
              (fun node => item_typeName (item node) <> assetTypeName /\
                           item_typeName (item node) <> itemLinkTypeName)
              nodes).
    { eapply Forall_impl; [exact Hnodes|]. now intros n' (H1 & H2 & _). }
    assert (Hres1 : assetsResolved nodes s1).
    { intros n' a' Hn' Hp' _. exfalso. apply (Habsent n' Hn').
      eapply present_nodesOf; [|exact Hp'].
      symmetry. apply Hkeep. rewrite Forall_forall in Hnodes.
      destruct (Hnodes n' Hn') as (_ & _ & Ht).
      now rewrite Forall_forall in Ht. }
    assert (Hres2 : assetsResolved nodes s2).
    { apply addContentItemNodes_resolved; try assumption.
      now apply Forall_forall. }
    unfold countId. rewrite nodesOf_addAssetSchemaResolvers.
    apply count_NoDup_ids; [exact Hnd2|].
    apply (Hres2 n a Hn); [|exact Ha].
    now apply addContentItemNodes_present.
Qed.

(** C8: with no content items the assembly of a type returns at once and
    leaves the store as it was, whatever linked items were fetched: the
    store receives no call, and a linked item is present afterwards only if
    it was present before. *)
Theorem addContentNodes_no_items content s :
  content_items content = [] ->
  addContentNodes content s = s /\
  newCalls s (addContentNodes content s) = [] /\
  (forall node,
      node ∈ map snd (content_linkedItems content) ->
      present (addContentNodes content s) node -> present s node).
Proof.
  intros Hitems.
  assert (Hsame : addContentNodes content s = s).
  { unfold addContentNodes. now rewrite Hitems. }
  rewrite Hsame. split; [reflexivity|]. split.
  - unfold newCalls. apply drop_all.
  - intros node _ Hp. exact Hp.
Qed.

(** C7: on a forest whose term lists are all arrays, the term nodes are
    inserted in pre-order, depth first -- a term, then the whole walk of
    its first child, then its next child, and so on -- and the node
    inserted for a term carries, as [terms], the ids of its direct
    children. *)
Theorem addTaxonomyTermNodes_inserts_preorder collection ts s :
  forallb wellFormed ts = true ->
  hasCollection s collection ->
  exists s',
    addTaxonomyTermNodes collection (Some ts) s = (Returned tt, s') /\
    nodesOf s' collection =
      nodesOf s collection ++ map NTerm (preorderForest ts) /\
    newCalls s s' =
      map (fun n => CallAddNode collection (NTerm n)) (preorderForest ts).
Proof.
  intros Hwf Hc. eexists. split; [now apply addTaxonomyTermNodes_preorder|].
  split.
  - now apply nodesOf_addNodes.
  - apply newCalls_app. rewrite calls_addNodes. now rewrite map_map.
Qed.

(** C3 (as the code has it): term insertion completes normally exactly
    when the list of terms, and the child list of every term below, is an
    array; a missing list is not taken for an empty one. *)
Theorem addTaxonomyTermNodes_returns_iff collection terms s :
  fst (addTaxonomyTermNodes collection terms s) = Returned tt <->
  exists ts, terms = Some ts /\ forallb wellFormed ts = true.
Proof.
  split.
  - destruct terms as [ts|]; [|discriminate].
    intros Hret. exists ts. split; [reflexivity|].
    destruct (forallb wellFormed ts) eqn:Hwf; [reflexivity|].
    rewrite addTaxonomyTermNodes_forEach in Hret.
    destruct (forEach_terms_throws collection ts) with (s := s)
      as (e & s' & Hthrow); [|assumption|].
    + apply Forall_forall. intros t _ Ht.
      now apply addTaxonomyTermNode_throws.
    + rewrite Hthrow in Hret. discriminate.
  - intros (ts & -> & Hwf).
    now rewrite addTaxonomyTermNodes_preorder.
Qed.

(** ** Further properties *)

(** *** Getting or creating a collection *)

(** X1: [getCollection] gets or creates.  Afterwards the collection
    exists; every collection the store held is what it was; a missing
    collection is created empty by one [addCollection] call, an existing one
    costs no call; and asking again changes nothing. *)
Theorem getCollection_get_or_create typeName s :
  hasCollection (getCollection typeName s) typeName /\
  (forall c col,
      collections s !! c = Some col ->
      collections (getCollection typeName s) !! c = Some col) /\
  (forall c, c <> typeName ->
             collections (getCollection typeName s) !! c = collections s !! c) /\
  newCalls s (getCollection typeName s) =
    (if decide (collections s !! typeName = None)
     then [CallAddCollection typeName] else []) /\
  (collections s !! typeName = None ->
   collections (getCollection typeName s) !! typeName = Some emptyCollection) /\
  getCollection typeName (getCollection typeName s) = getCollection typeName s.
Proof.
  split; [apply hasCollection_getCollection|].
  destruct (getCollection_cases typeName s) as [[[col0 Hex] Heq]|[Hnone Heq]];
    rewrite Heq.
  - split; [now intros|]. split; [now intros|]. split.
    + rewrite decide_False by congruence. unfold newCalls. apply drop_all.
    + split; [congruence|exact Heq].
  - split; [|split; [|split; [|split]]].
    + intros c col Hc. simpl. rewrite lookup_insert_ne; [exact Hc|congruence].
    + intros c Hne. simpl. now rewrite lookup_insert_ne.
    + rewrite decide_True by assumption.
      now apply newCalls_app.
    + intros _. simpl. apply lookup_insert_eq.
    + unfold getCollection at 1, GridsomeStore.getCollection. simpl.
      now rewrite lookup_insert_eq.
Qed.

(** *** Running a list of content items again *)

Lemma addContentItemNode_noop node s :
  present s node -> addContentItemNode node s = s.
Proof.
  intros [n Hn]. unfold addContentItemNode.
  assert (Hget : getCollection (item_typeName (item node)) s = s).
  { unfold getCollection, GridsomeStore.getCollection.
    unfold GridsomeStore.findNode in Hn.
    now destruct (collections s !! item_typeName (item node)). }
  rewrite Hget. now rewrite (addContentNode_found _ _ _ _ Hn).
Qed.

Lemma addContentItemNodes_noop l s :
  Forall (present s) l -> addContentItemNodes l s = s.
Proof.
  induction 1 as [|node l Hnode _ IH]; [reflexivity|].
  unfold addContentItemNodes in *. simpl.
  now rewrite (addContentItemNode_noop _ _ Hnode).
Qed.

(** X2: once a list of content items has gone through
    [addContentItemNodes], every one of them is present in the collection
    of its type, and sending the list (or the same fetched content) through
    again leaves the store exactly as it is. *)
Theorem addContentItemNodes_idempotent l content s :
  (forall node, node ∈ l -> present (addContentItemNodes l s) node) /\
  addContentItemNodes l (addContentItemNodes l s) = addContentItemNodes l s /\
  addContentNodes content (addContentNodes content s) =
    addContentNodes content s.
Proof.
  assert (Hagain : forall l' s',
             addContentItemNodes l' (addContentItemNodes l' s') =
             addContentItemNodes l' s').
  { intros l' s'. apply addContentItemNodes_noop, Forall_forall.
    intros node Hin. now apply addContentItemNodes_present. }
  split; [intros node Hin; now apply addContentItemNodes_present|].
  split; [apply Hagain|].
  rewrite !addContentNodes_nodesOfContent. apply Hagain.
Qed.

(** *** Terms with a missing list *)

Lemma takeWhile_app_all {A} (p : A -> bool) l k :
  forallb p l = true -> takeWhile p (l ++ k) = l ++ takeWhile p k.
Proof.
  induction l as [|x l IH]; simpl; [reflexivity|].
  intros H. apply andb_prop in H as [Hx Hl]. rewrite Hx. now rewrite IH.
Qed.

Lemma takeWhile_app_stop {A} (p : A -> bool) l k :
  forallb p l = false -> takeWhile p (l ++ k) = takeWhile p l.
Proof.
  induction l as [|x l IH]; simpl; [discriminate|].
  destruct (p x); simpl; [|reflexivity]. intros H. now rewrite IH.
Qed.

Lemma takeWhile_all {A} (p : A -> bool) l :
  forallb p l = true -> takeWhile p l = l.
Proof.
  intros H. rewrite <- (app_nil_r l) at 1.
  rewrite takeWhile_app_all by assumption. simpl. apply app_nil_r.
Qed.

Lemma forallb_flat_map {A B} (p : B -> bool) (f : A -> list B) l :
  forallb p (flat_map f l) = forallb (fun x => forallb p (f x)) l.
Proof.
  induction l as [|x l IH]; simpl; [reflexivity|].
  now rewrite forallb_app, IH.
Qed.

Lemma wellFormed_walk t : wellFormed t = forallb hasTerms (walk t).
Proof.
  induction t as [i n sl|i n sl children IH] using Term_forest_ind;
    [reflexivity|].
  simpl. unfold hasTerms at 1. simpl. rewrite forallb_flat_map.
  induction IH as [|c cs Hc _ IHcs]; simpl; [reflexivity|].
  now rewrite Hc, IHcs.
Qed.

Lemma wellFormed_forest ts :
  forallb wellFormed ts = forallb hasTerms (flat_map walk ts).
Proof.
  rewrite forallb_flat_map.
  induction ts as [|t ts IH]; simpl; [reflexivity|].
  now rewrite wellFormed_walk, IH.
Qed.

Lemma forEach_terms_partial collection children :
  Forall (fun t => forall s,
              snd (addTaxonomyTermNode collection t s) =
              addNodes collection
                (map NTerm (map termNodeSpec (takeWhile hasTerms (walk t)))) s)
         children ->
  forall s,
    snd (forEach (addTaxonomyTermNode collection) children s) =
    addNodes collection (map NTerm (insertedTerms children)) s.
Proof.
  unfold insertedTerms.
  induction 1 as [|t ts Ht _ IH]; intros s; [reflexivity|].
  cbn [forEach flat_map]. unfold bind.
  destruct (wellFormed t) eqn:Hwt.
  - rewrite (addTaxonomyTermNode_preorder collection t Hwt).
    rewrite IH. rewrite wellFormed_walk in Hwt.
    rewrite (takeWhile_app_all _ _ _ Hwt), !map_app, addNodes_app.
    reflexivity.
  - destruct (addTaxonomyTermNode_throws collection t Hwt s)
      as (e & s' & Hthrow).
    specialize (Ht s). rewrite Hthrow in *. cbn [snd] in *.
    rewrite wellFormed_walk in Hwt.
    now rewrite (takeWhile_app_stop _ _ _ Hwt).
Qed.

Lemma addTaxonomyTermNode_partial collection t s :
  snd (addTaxonomyTermNode collection t s) =
  addNodes collection
    (map NTerm (map termNodeSpec (takeWhile hasTerms (walk t)))) s.
Proof.
  revert s.
  induction t as [i n sl|i n sl children IH] using Term_forest_ind;
    intros s; [reflexivity|].
  rewrite addTaxonomyTermNode_eq. cbn [term_terms].
  rewrite addTaxonomyTermNodes_forEach.
  unfold bind, lift.
  rewrite (forEach_terms_partial collection children IH).
  reflexivity.
Qed.

(** X3: the terms are inserted in the order of the pre-order walk up to,
    and not including, the first term whose [terms] property is missing;
    nothing is inserted after it.  The insertion returns exactly when the
    walk meets no such term, and otherwise throws. *)
Theorem addTaxonomyTermNodes_stops_at_missing collection ts s :
  let run := addTaxonomyTermNodes collection (Some ts) s in
  newCalls s (snd run) =
    map (fun t => CallAddNode collection (NTerm t)) (insertedTerms ts) /\
  (hasCollection s collection ->
   nodesOf (snd run) collection =
   nodesOf s collection ++ map NTerm (insertedTerms ts)) /\
  (fst run = Returned tt <->
   forallb hasTerms (flat_map walk ts) = true) /\
  (forallb hasTerms (flat_map walk ts) = false -> exists e, fst run = Thrown e).
Proof.
  intros run.
  assert (Hsnd : snd run =
                 addNodes collection (map NTerm (insertedTerms ts)) s).
  { unfold run. rewrite addTaxonomyTermNodes_forEach.
    apply forEach_terms_partial, Forall_forall.
    intros t _ s'. apply addTaxonomyTermNode_partial. }
  rewrite Hsnd. split; [|split; [|split]].
  - apply newCalls_app. rewrite calls_addNodes. now rewrite map_map.
  - intros Hc. now apply nodesOf_addNodes.
  - rewrite <- wellFormed_forest. unfold run. split.
    + intros Hret. destruct (forallb wellFormed ts) eqn:Hwf; [reflexivity|].
      rewrite addTaxonomyTermNodes_forEach in Hret.
      destruct (forEach_terms_throws collection ts) with (s := s)
        as (e & s' & Hthrow); [|assumption|].
      * apply Forall_forall. intros t _ Ht.
        now apply addTaxonomyTermNode_throws.
      * rewrite Hthrow in Hret. discriminate.
    + intros Hwf. now rewrite addTaxonomyTermNodes_preorder.
  - rewrite <- wellFormed_forest. intros Hwf. unfold run.
    rewrite addTaxonomyTermNodes_forEach.
    destruct (forEach_terms_throws collection ts) with (s := s)
      as (e & s' & Hthrow); [|assumption|].
    + apply Forall_forall. intros t _ Ht.
      now apply addTaxonomyTermNode_throws.
    + exists e. now rewrite Hthrow.
Qed.

(** *** Taxonomy groups *)

Lemma filter_addNode_calls collection (ns : list Node) :
  List.filter (fun c => negb (isAddCollection c))
              (map (CallAddNode collection) ns) =
  map (CallAddNode collection) ns.
Proof. induction ns as [|n ns IH]; simpl; [reflexivity|]. now rewrite IH. Qed.

Lemma addTaxonomyGroupNode_calls taxonomyItem s :
  wellFormedTaxonomy taxonomyItem = true ->
  let typeName := taxonomy_typeName taxonomyItem in
  exists s1 created,
    addTaxonomyGroupNode taxonomyItem s = (Returned tt, s1) /\
    extends s s1 /\
    hasCollection s1 typeName /\
    newCalls s s1 = created ++ taxonomyGroupCalls taxonomyItem /\
    (created = [] \/
     (created = [CallAddCollection typeName] /\
      collections s !! typeName = None)).
Proof.
  intros Hwf typeName. unfold wellFormedTaxonomy in Hwf.
  unfold addTaxonomyGroupNode, taxonomyGroupCalls. fold typeName.
  destruct (taxonomy_terms taxonomyItem) as [ts|]; [|discriminate].
  unfold bind, lift. rewrite (addTaxonomyTermNodes_preorder _ _ _ Hwf).
  set (s0 := getCollection typeName s).
  set (s2 := GridsomeStore.addReference typeName "terms" typeName s0).
  exists (addNodes typeName (map NTerm (preorderForest ts)) s2),
         (newCalls s s0).
  assert (H0 : extends s s0) by apply extends_getCollection.
  assert (H2 : extends s0 s2) by apply extends_addReference.
  assert (H3 : extends s2 (addNodes typeName (map NTerm (preorderForest ts)) s2)).
  { apply extends_foldl. intros. apply extends_addNode. }
  split; [reflexivity|]. split; [|split; [|split]].
  - eapply extends_trans; [exact H0|]. eapply extends_trans; eassumption.
  - apply (hasCollection_extends s0);
      [eapply extends_trans; [exact H2|exact H3]|].
    apply hasCollection_getCollection.
  - apply newCalls_app. rewrite calls_addNodes. unfold s2. simpl.
    rewrite (extends_calls_app _ _ H0), map_map.
    now rewrite <- !app_assoc.
  - unfold s0.
    destruct (getCollection_cases typeName s) as [[_ ->]|[Hnone ->]].
    + left. unfold newCalls. apply drop_all.
    + right. split; [|exact Hnone]. now apply newCalls_app.
Qed.

(** X4: when no term list is missing, [addTaxonomyGroupNodes] returns
    and handles the groups in list order: for each one it declares the
    [terms] reference of the group's collection to itself and then inserts
    the terms of the group in pre-order.  The only other calls create a
    collection, and that happens only for a group whose collection the
    store did not have. *)
Theorem addTaxonomyGroupNodes_in_order taxonomies s :
  forallb wellFormedTaxonomy taxonomies = true ->
  let run := addTaxonomyGroupNodes taxonomies s in
  fst run = Returned tt /\
  List.filter (fun c => negb (isAddCollection c)) (newCalls s (snd run)) =
    flat_map taxonomyGroupCalls taxonomies /\
  (forall taxonomyItem,
      taxonomyItem ∈ taxonomies ->
      hasCollection (snd run) (taxonomy_typeName taxonomyItem)) /\
  (forall typeName,
      CallAddCollection typeName ∈ newCalls s (snd run) ->
      collections s !! typeName = None /\
      exists taxonomyItem,
        taxonomyItem ∈ taxonomies /\
        typeName = taxonomy_typeName taxonomyItem).
Proof.
  unfold addTaxonomyGroupNodes. revert s.
  induction taxonomies as [|ti l IH]; intros s Hwf.
  - cbn. unfold newCalls. rewrite drop_all.
    split; [reflexivity|]. split; [reflexivity|].
    split; [intros ti Hti; inversion Hti|intros tn Htn; inversion Htn].
  - cbn [forallb] in Hwf. apply andb_prop in Hwf as [Hti Hl].
    destruct (addTaxonomyGroupNode_calls ti s Hti)
      as (s1 & created & Hrun & Hext & Hcoll & Hcalls & Hcreated).
    assert (Hstep : forEach addTaxonomyGroupNode (ti :: l) s =
                    forEach addTaxonomyGroupNode l s1).
    { cbn [forEach]. unfold bind. now rewrite Hrun. }
    cbv zeta. rewrite Hstep.
    destruct (IH s1 Hl) as (Hret & Hfilter & Hhas & Hcreate).
    pose proof (steps_forEach (fun _ => True) addTaxonomyGroupNode l
                  (fun x s' _ =>
                     steps_weaken _ _ _ _ (fun _ _ => I)
                       (steps_addTaxonomyGroupNode x s')) s1) as [Hext1 _].
    set (s2 := snd (forEach addTaxonomyGroupNode l s1)) in *.
    rewrite (newCalls_trans s s1 s2 Hext Hext1).
    split; [exact Hret|]. split; [|split].
    + rewrite List.filter_app, Hfilter, Hcalls, List.filter_app.
      cbn [flat_map]. f_equal.
      replace (List.filter (fun c => negb (isAddCollection c)) created)
        with (@nil Call)
        by (destruct Hcreated as [->|[-> _]]; reflexivity).
      unfold taxonomyGroupCalls. cbn [app List.filter isAddCollection negb].
      f_equal. rewrite <- map_map. apply filter_addNode_calls.
    + intros taxonomyItem Hin.
      apply elem_of_cons in Hin as [->|Hin]; [|now apply Hhas].
      eapply hasCollection_extends; eassumption.
    + intros typeName Hin. apply elem_of_app in Hin as [Hin|Hin].
      * rewrite Hcalls in Hin. apply elem_of_app in Hin as [Hin|Hin].
        -- destruct Hcreated as [->|[-> Hnone]]; [inversion Hin|].
           apply list_elem_of_singleton in Hin. injection Hin as ->.
           split; [exact Hnone|]. exists ti. split; [left|reflexivity].
        -- exfalso. unfold taxonomyGroupCalls in Hin.
           apply elem_of_cons in Hin as [Hin|Hin]; [discriminate|].
           apply list_elem_of_fmap in Hin as (t & Ht & _). discriminate.
      * destruct (Hcreate typeName Hin) as (Hnone & ti' & Hti' & ->).
        split.
        -- destruct (collections s !! taxonomy_typeName ti') as [c|] eqn:Hc;
             [|reflexivity].
           destruct (extends_collections _ _ Hext _ _ Hc) as (c' & Hc' & _).
           congruence.
        -- exists ti'. split; [now right|reflexivity].
Qed.

Lemma addTaxonomyGroupNodes_throws taxonomies s :
  forallb wellFormedTaxonomy taxonomies = false ->
  exists e s', addTaxonomyGroupNodes taxonomies s = (Thrown e, s').
Proof.
  unfold addTaxonomyGroupNodes. revert s.
  induction taxonomies as [|ti l IH]; intros s Hwf; [discriminate|].
  cbn [forallb] in Hwf. cbn [forEach]. unfold bind at 1.
  destruct (wellFormedTaxonomy ti) eqn:Hti.
  - destruct (addTaxonomyGroupNode_calls ti s Hti) as (s1 & _ & -> & _).
    now apply IH.
  - assert (Hthrow : exists e s',
               addTaxonomyGroupNode ti s = (Thrown e, s')).
    { unfold addTaxonomyGroupNode, bind, lift.
      unfold wellFormedTaxonomy in Hti.
      destruct (taxonomy_terms ti) as [ts|]; [|unfold throw; simpl; eauto].
      rewrite addTaxonomyTermNodes_forEach.
      apply forEach_terms_throws; [|assumption].
      apply Forall_forall. intros t _ Ht.
      now apply addTaxonomyTermNode_throws. }
    destruct Hthrow as (e & s' & ->). eauto.
Qed.

(** X5: when some taxonomy group has a missing term list, [load] throws
    while it adds the taxonomy nodes, before any content is fetched: the
    calls made up to then all belong to taxonomy groups, no content item
    has been inserted and no schema resolver registered. *)
Theorem load_throws_on_missing_terms deliveryClient s :
  forallb wellFormedTaxonomy (client_taxonomies deliveryClient) = false ->
  exists e s',
    load deliveryClient s = (Thrown e, s') /\
    schemaResolvers s' = schemaResolvers s /\
    Forall (fun c => exists taxonomyItem,
                taxonomyItem ∈ client_taxonomies deliveryClient /\
                taxonomyGroupCall (taxonomy_typeName taxonomyItem) c)
           (newCalls s s') /\
    (forall collection it,
        CallAddNode collection (NItem it) ∉ newCalls s s').
Proof.
  intros Hwf.
  destruct (addTaxonomyGroupNodes_throws _ s Hwf) as (e & s' & Hthrow).
  pose proof (steps_addTaxonomyGroupNodes
                (client_taxonomies deliveryClient) s) as Hsteps.
  rewrite Hthrow in Hsteps. cbn [snd] in Hsteps.
  exists e, s'. split; [unfold load, bind; now rewrite Hthrow|].
  pose proof (emits_newCalls _ _ _ (proj2 Hsteps)) as Hall.
  split; [|split; [exact Hall|]].
  - apply schemaResolvers_steps_keeps.
    eapply steps_weaken; [|exact Hsteps].
    intros c (ti & _ & [->|[->|[t ->]]]) tn; discriminate.
  - intros collection it Hin. rewrite Forall_forall in Hall.
    destruct (Hall _ Hin) as (ti & _ & [H|[H|[t H]]]); discriminate.
Qed.

(** *** The calls for one new content node *)

Lemma addLinkedItemFields_declares collection node s f first rest :
  f ∈ linkedItemFields node ->
  linkedItems f = first :: rest ->
  CallAddReference collection (linked_fieldName f) (linked_typeName first)
    ∈ newCalls s (addLinkedItemFields collection node s).
Proof.
  intros Hin Hf. unfold addLinkedItemFields.
  apply (newCalls_foldl_elem
           (fun s f => addLinkedItemField collection f s) _ _ f);
    [intros; apply extends_addLinkedItemField|assumption|].
  intros s0. rewrite (addLinkedItemField_cons _ _ _ _ _ Hf).
  erewrite newCalls_app by reflexivity. now left.
Qed.

Lemma addTaxonomyFields_declares collection node s f :
  f ∈ taxonomyFields node ->
  CallAddReference collection (taxonomy_fieldName f)
                   (getTypeName (taxonomyGroup f))
    ∈ newCalls s (addTaxonomyFields collection node s).
Proof.
  intros Hin. unfold addTaxonomyFields.
  apply (newCalls_foldl_elem
           (fun s f => addTaxonomyField collection f s) _ _ f);
    [intros; apply extends_addReference|assumption|].
  intros s0. unfold addTaxonomyField.
  erewrite newCalls_app by reflexivity. now left.
Qed.

Lemma addAssetFields_declares collection node s f :
  f ∈ assetFields node ->
  CallAddReference collection (asset_fieldName f) assetTypeName
    ∈ newCalls s (addAssetFields collection node s).
Proof.
  intros Hin. unfold addAssetFields.
  rewrite (newCalls_trans s (getCollection assetTypeName s));
    [|apply extends_getCollection
     |apply extends_foldl; intros; apply extends_addAssetField].
  apply elem_of_app. right.
  apply (newCalls_foldl_elem
           (fun s f => addAssetField assetTypeName collection f s) _ _ f);
    [intros; apply extends_addAssetField|assumption|].
  intros s0. unfold addAssetField.
  rewrite (newCalls_trans s0
             (foldl (fun s a => addAsset assetTypeName a s) s0 (assets f)));
    [|apply extends_foldl; intros; apply extends_addAsset
     |apply extends_addReference].
  apply elem_of_app. right.
  erewrite newCalls_app by reflexivity. now left.
Qed.

(** X6: for a node that is new to its collection, every reference
    declaration of its linked-item, taxonomy and asset fields, and every
    insertion of one of its assets, is made before the node itself is
    inserted; the only calls after the insertion are those that derive its
    ItemLink node. *)
Theorem addContentNode_declares_before_inserting collection node s :
  GridsomeStore.findNode s collection (item_id (item node)) = None ->
  exists before after,
    newCalls s (snd (addContentNode collection node s)) =
      before ++ CallAddNode collection (NItem (item node)) :: after /\
    Forall (resolveCall collection node) before /\
    Forall (itemLinkCall (item node)) after /\
    (forall f first rest,
        f ∈ linkedItemFields node -> linkedItems f = first :: rest ->
        CallAddReference collection (linked_fieldName f)
                         (linked_typeName first) ∈ before) /\
    (forall f,
        f ∈ taxonomyFields node ->
        CallAddReference collection (taxonomy_fieldName f)
                         (getTypeName (taxonomyGroup f)) ∈ before) /\
    (forall f,
        f ∈ assetFields node ->
        CallAddReference collection (asset_fieldName f) assetTypeName
          ∈ before).
Proof.
  intros Hfind. rewrite (addContentNode_fresh _ _ _ Hfind). cbn [snd].
  set (s1 := addLinkedItemFields collection node s).
  set (s2 := addTaxonomyFields collection node s1).
  set (s3 := addAssetFields collection node s2).
  set (s4 := GridsomeStore.addNode collection (NItem (item node)) s3).
  set (s5 := if negb (isComponent (item node))
             then addItemLinkNode (item node) s4 else s4).
  assert (H1 : extends s s1) by apply steps_addLinkedItemFields.
  assert (H2 : extends s1 s2) by apply steps_addTaxonomyFields.
  assert (H3 : extends s2 s3) by apply steps_addAssetFields.
  assert (H03 : steps (resolveCall collection node) s s3)
    by apply steps_resolve.
  assert (H4 : extends s3 s4) by apply extends_addNode.
  assert (H5 : steps (itemLinkCall (item node)) s4 s5).
  { unfold s5. destruct (negb (isComponent (item node)));
      [apply steps_addItemLinkNode|apply steps_refl]. }
  exists (newCalls s s3), (newCalls s4 s5).
  split; [|split; [|split; [|split; [|split]]]].
  - rewrite (newCalls_trans s s3 s5 (proj1 H03));
      [|eapply extends_trans; [exact H4|apply H5]].
    f_equal. rewrite (newCalls_trans s3 s4 s5 H4 (proj1 H5)).
    now erewrite (newCalls_app s3 s4) by reflexivity.
  - apply emits_newCalls, H03.
  - apply emits_newCalls, H5.
  - intros f first rest Hin Hf.
    rewrite (newCalls_trans s s1 s3 H1)
      by (eapply extends_trans; eassumption).
    apply elem_of_app. left.
    now apply (addLinkedItemFields_declares _ _ _ f first rest).
  - intros f Hin.
    rewrite (newCalls_trans s s2 s3) by
      (assumption || eapply extends_trans; eassumption).
    apply elem_of_app. left.
    rewrite (newCalls_trans s s1 s2 H1 H2).
    apply elem_of_app. right. now apply addTaxonomyFields_declares.
  - intros f Hin.
    rewrite (newCalls_trans s s2 s3) by
      (assumption || eapply extends_trans; eassumption).
    apply elem_of_app. right. now apply addAssetFields_declares.
Qed.

(** *** Item links *)

Lemma lookup_applyCall_leaves collection c s :
  leavesCollection collection c ->
  collections (applyCall c s) !! collection = collections s !! collection.
Proof.
  destruct c as [tn|c0 f t|c0 n|tn]; simpl; intros Hne.
  - now rewrite lookup_insert_ne.
  - now rewrite lookup_alter_ne.
  - now rewrite lookup_alter_ne.
  - reflexivity.
Qed.

Lemma lookup_steps_leaves collection s s' :
  steps (leavesCollection collection) s s' ->
  collections s' !! collection = collections s !! collection.
Proof.
  intros [_ (l & -> & Hl)]. revert s.
  induction Hl as [|c l Hc _ IH]; intros s; [reflexivity|].
  unfold replay in *. simpl. rewrite IH.
  now apply lookup_applyCall_leaves.
Qed.

Lemma resolveCall_leaves collection node c0 c :
  c0 <> collection -> c0 <> assetTypeName ->
  resolveCall collection node c -> leavesCollection c0 c.
Proof.
  intros Hc Ha [(f & first & rest & _ & _ & ->)
               |[(f & _ & ->)
                |[->|[(f & a & _ & _ & ->)|(f & _ & ->)]]]];
    simpl; congruence.
Qed.

(** X7: a content node that is new to its collection and is not a
    component gets exactly one ItemLink node, added at the end of the
    ItemLink collection with the id, type name and path of the item; for a
    component the ItemLink collection is left untouched, and is not even
    created.  (The ItemLink collection is taken to be neither the node's
    own collection nor the Asset collection.) *)
Theorem addContentNode_item_link collection node s :
  GridsomeStore.findNode s collection (item_id (item node)) = None ->
  collection <> itemLinkTypeName ->
  assetTypeName <> itemLinkTypeName ->
  let s' := snd (addContentNode collection node s) in
  (isComponent (item node) = false ->
   nodesOf s' itemLinkTypeName =
   nodesOf s itemLinkTypeName
     ++ [NItemLink (mkItemLinkNode (item_id (item node))
                                   (item_typeName (item node))
                                   (item_path (item node)))]) /\
  (isComponent (item node) = true ->
   collections s' !! itemLinkTypeName = collections s !! itemLinkTypeName).
Proof.
  intros Hfind Hcl Hal s'. unfold s'.
  rewrite (addContentNode_fresh _ _ _ Hfind). cbn [snd].
  set (s3 := addAssetFields collection node _).
  set (s4 := GridsomeStore.addNode collection (NItem (item node)) s3).
  assert (H04 : steps (leavesCollection itemLinkTypeName) s s4).
  { apply (steps_trans _ _ s3).
    - eapply steps_weaken; [|apply steps_resolve].
      intros c. apply resolveCall_leaves; congruence.
    - apply steps_addNode. simpl. congruence. }
  pose proof (lookup_steps_leaves _ _ _ H04) as Hlook.
  split; intros Hcomp; rewrite Hcomp; cbn [negb]; [|exact Hlook].
  unfold addItemLinkNode.
  rewrite nodesOf_addNode by apply hasCollection_getCollection.
  rewrite nodesOf_getCollection. unfold nodesOf. now rewrite Hlook.
Qed.

(** *** Taxonomy fields *)

Lemma hasCollection_addReference collection fieldName typeName s c :
  hasCollection (GridsomeStore.addReference collection fieldName typeName s) c
  <-> hasCollection s c.
Proof.
  unfold hasCollection. simpl. rewrite lookup_alter.
  case_decide; [subst|reflexivity].
  now rewrite fmap_is_Some.
Qed.

(** X8: the taxonomy pass declares every taxonomy field of the node, in
    field order, as a reference to the type name that the taxonomy item
    factory gives for the field's group, and does nothing else: it inserts
    no node, creates no collection -- not that of the group either -- and
    touches no collection but the node's. *)
Theorem addTaxonomyFields_declares_every_field collection node s :
  let s' := addTaxonomyFields collection node s in
  newCalls s s' =
    map (fun f => CallAddReference collection (taxonomy_fieldName f)
                                   (getTypeName (taxonomyGroup f)))
        (taxonomyFields node) /\
  (forall c, nodesOf s' c = nodesOf s c) /\
  (forall c, hasCollection s' c <-> hasCollection s c) /\
  (forall c, c <> collection -> collections s' !! c = collections s !! c).
Proof.
  cbv zeta. unfold addTaxonomyFields.
  split; [|split; [|split]].
  - apply newCalls_app.
    generalize (taxonomyFields node) as fields. intros fields. revert s.
    induction fields as [|f fields IH]; intros s; simpl.
    + now rewrite app_nil_r.
    + rewrite IH. unfold addTaxonomyField. simpl.
      now rewrite <- app_assoc.
  - intros c. apply nodesOf_steps_keeps.
    eapply steps_weaken; [|apply steps_addTaxonomyFields].
    intros call (f & _ & ->). apply reference_keepsNodes.
  - intros c. generalize (taxonomyFields node) as fields.
    intros fields. revert s.
    induction fields as [|f fields IH]; intros s; simpl; [reflexivity|].
    rewrite IH. unfold addTaxonomyField. apply hasCollection_addReference.
  - intros c Hne. apply lookup_steps_leaves.
    eapply steps_weaken; [|apply steps_addTaxonomyFields].
    intros call (f & _ & ->). simpl. congruence.
Qed.

(** *** Which assets are inserted *)

Lemma newAssets_app seen l1 l2 :
  newAssets seen (l1 ++ l2) =
  newAssets seen l1
    ++ newAssets (seen ++ map asset_id (newAssets seen l1)) l2.
Proof.
  revert seen. induction l1 as [|a l1 IH]; intros seen; simpl.
  - now rewrite app_nil_r.
  - case_decide; [apply IH|].
    simpl. rewrite IH. do 2 f_equal.
    now rewrite <- app_assoc.
Qed.

Lemma newAssets_spec seen l :
  NoDup (map asset_id (newAssets seen l)) /\
  forall a, a ∈ newAssets seen l -> a ∈ l /\ asset_id a ∉ seen.
Proof.
  revert seen. induction l as [|a l IH]; intros seen; simpl.
  - split; [constructor|]. intros a H. inversion H.
  - case_decide as Hin.
    + destruct (IH seen) as [Hnd Hsub]. split; [exact Hnd|].
      intros b Hb. destruct (Hsub b Hb). split; [now right|assumption].
    + destruct (IH (seen ++ [asset_id a])) as [Hnd Hsub]. split.
      * simpl. apply NoDup_cons. split; [|exact Hnd].
        intros Hdup. apply list_elem_of_fmap in Hdup as (b & Hid & Hb).
        destruct (Hsub b Hb) as [_ Hout]. apply Hout.
        apply elem_of_app. right. rewrite Hid. now left.
      * intros b Hb. apply elem_of_cons in Hb as [->|Hb].
        -- split; [now left|exact Hin].
        -- destruct (Hsub b Hb) as [Hbl Hout]. split; [now right|].
           intros Hseen. apply Hout. apply elem_of_app. now left.
Qed.

Lemma nodesOf_addAssets l s :
  hasCollection s assetTypeName ->
  nodesOf (foldl (fun s a => addAsset assetTypeName a s) s l) assetTypeName =
  nodesOf s assetTypeName ++ map NAsset (newAssets (assetIds s) l).
Proof.
  revert s. induction l as [|a l IH]; intros s Hc; simpl.
  - now rewrite app_nil_r.
  - unfold addAsset at 2.
    destruct (GridsomeStore.findNode s assetTypeName (asset_id a))
      as [n|] eqn:Hfind.
    + rewrite decide_True; [now apply IH|].
      destruct (decide (asset_id a ∈ assetIds s)) as [Hin|Hout];
        [exact Hin|].
      apply find_node_id_None in Hout.
      rewrite findNode_nodesOf in Hfind. congruence.
    + rewrite findNode_nodesOf, find_node_id_None in Hfind.
      rewrite decide_False by exact Hfind.
      rewrite IH by now apply hasCollection_addNode.
      unfold assetIds. rewrite (nodesOf_addNode _ _ _ Hc), map_app. simpl.
      now rewrite <- app_assoc.
Qed.

Lemma nodesOf_addReference collection fieldName typeName s c :
  nodesOf (GridsomeStore.addReference collection fieldName typeName s) c =
  nodesOf s c.
Proof.
  apply (nodesOf_applyCall_keeps c
           (CallAddReference collection fieldName typeName)).
  apply reference_keepsNodes.
Qed.

Lemma nodesOf_addAssetFields_fold collection fields s :
  hasCollection s assetTypeName ->
  nodesOf (foldl (fun s f => addAssetField assetTypeName collection f s)
                 s fields) assetTypeName =
  nodesOf s assetTypeName
    ++ map NAsset (newAssets (assetIds s) (flat_map assets fields)).
Proof.
  revert s. induction fields as [|f fields IH]; intros s Hc; simpl.
  - now rewrite app_nil_r.
  - assert (Hf : nodesOf (addAssetField assetTypeName collection f s)
                         assetTypeName =
                 nodesOf s assetTypeName
                   ++ map NAsset (newAssets (assetIds s) (assets f))).
    { unfold addAssetField. rewrite nodesOf_addReference.
      now apply nodesOf_addAssets. }
    rewrite IH
      by (eapply hasCollection_extends;
          [apply extends_addAssetField|exact Hc]).
    unfold assetIds at 1. rewrite Hf, newAssets_app, !map_app, map_map.
    simpl. now rewrite <- app_assoc.
Qed.

(** X9: the asset pass adds to the Asset collection, after the nodes it
    already holds, the assets of the node's fields in field order, leaving
    out every asset whose id the collection holds or that an earlier asset
    of the node carries: for each new id the first asset wins, and no node
    already there is replaced. *)
Theorem addAssetFields_first_occurrence collection node s :
  let added := newAssets (assetIds s) (assetsOf node) in
  nodesOf (addAssetFields collection node s) assetTypeName =
    nodesOf s assetTypeName ++ map NAsset added /\
  NoDup (map asset_id added) /\
  (forall a, a ∈ added -> a ∈ assetsOf node /\ asset_id a ∉ assetIds s).
Proof.
  intros added. split; [|apply newAssets_spec].
  unfold addAssetFields, added, assetsOf.
  rewrite nodesOf_addAssetFields_fold by apply hasCollection_getCollection.
  unfold assetIds. now rewrite !nodesOf_getCollection.
Qed.

(** *** The whole load *)

Lemma steps_addContentItemNodes_calls l s :
  steps (fun c => exists node, node ∈ l /\ contentItemCall node c)
        s (addContentItemNodes l s).
Proof.
  unfold addContentItemNodes. apply steps_foldl. clear s.
  intros s node Hin. unfold addContentItemNode.
  eapply steps_trans.
  - apply steps_getCollection. exists node. split; [exact Hin|now left].
  - eapply steps_weaken; [|apply steps_addContentNode].
    intros c Hc. exists node. split; [exact Hin|now right].
Qed.

Lemma steps_addAssetSchemaResolvers s :
  steps (fun c => c = CallAddCollection assetTypeName \/
                  c = CallAddSchemaResolvers assetTypeName)
        s (addAssetSchemaResolvers s).
Proof.
  destruct (addAssetSchemaResolvers_cases s) as [[_ ->]|[_ ->]].
  - apply steps_getCollection. now left.
  - eapply steps_trans; [apply steps_getCollection; now left|].
    apply steps_addSchemaResolvers. now right.
Qed.

Lemma contentItemCall_no_term node c :
  contentItemCall node c -> forall typeName t, c <> CallAddNode typeName (NTerm t).
Proof.
  intros [->|[[(f & first & rest & _ & _ & ->)
              |[(f & _ & ->)
               |[->|[(f & a & _ & _ & ->)|(f & _ & ->)]]]]
             |[->|[->| ->]]]] typeName t; discriminate.
Qed.

(** X10: when no term list is missing, [load] returns, and what it does
    to the store falls into three stretches: first the calls of the
    taxonomy groups, then those of the content items, then those of the
    schema resolvers.  So every taxonomy term is inserted before the first
    content collection is created or content item inserted, and no content
    item is inserted by the taxonomy stretch. *)
Theorem load_taxonomy_then_content deliveryClient s :
  forallb wellFormedTaxonomy (client_taxonomies deliveryClient) = true ->
  exists s' taxonomyCalls contentCalls resolverCalls,
    load deliveryClient s = (Returned tt, s') /\
    newCalls s s' = taxonomyCalls ++ contentCalls ++ resolverCalls /\
    Forall (fun c => exists taxonomyItem,
                taxonomyItem ∈ client_taxonomies deliveryClient /\
                taxonomyGroupCall (taxonomy_typeName taxonomyItem) c)
           taxonomyCalls /\
    Forall (fun c => exists node,
                node ∈ nodesOfClient deliveryClient /\
                contentItemCall node c)
           contentCalls /\
    Forall (fun c => c = CallAddCollection assetTypeName \/
                     c = CallAddSchemaResolvers assetTypeName)
           resolverCalls /\
    Forall (fun c => forall typeName t, c <> CallAddNode typeName (NTerm t))
           (contentCalls ++ resolverCalls) /\
    Forall (fun c => forall typeName it, c <> CallAddNode typeName (NItem it))
           taxonomyCalls.
Proof.
  intros Hwf.
  set (s1 := snd (addTaxonomyGroupNodes (client_taxonomies deliveryClient) s)).
  set (s2 := addContentItemNodes (nodesOfClient deliveryClient) s1).
  pose proof (steps_addTaxonomyGroupNodes
                (client_taxonomies deliveryClient) s) as H1. fold s1 in H1.
  pose proof (steps_addContentItemNodes_calls
                (nodesOfClient deliveryClient) s1) as H2. fold s2 in H2.
  pose proof (steps_addAssetSchemaResolvers s2) as H3.
  exists (loaded deliveryClient s), (newCalls s s1), (newCalls s1 s2),
         (newCalls s2 (addAssetSchemaResolvers s2)).
  pose proof (emits_newCalls _ _ _ (proj2 H1)) as F1.
  pose proof (emits_newCalls _ _ _ (proj2 H2)) as F2.
  pose proof (emits_newCalls _ _ _ (proj2 H3)) as F3.
  split; [now apply load_loaded|].
  split; [|split; [exact F1|split; [exact F2|split; [exact F3|split]]]].
  - unfold loaded, addSchemaResolvers. fold s1 s2.
    rewrite (newCalls_trans s s1 _ (proj1 H1))
      by (eapply extends_trans; [apply H2|apply H3]).
    f_equal. apply newCalls_trans; [apply H2|apply H3].
  - apply Forall_app. split.
    + eapply Forall_impl; [exact F2|].
      intros c (node & _ & Hc). now apply (contentItemCall_no_term node).
    + eapply Forall_impl; [exact F3|].
      intros c [->| ->] typeName t; discriminate.
  - eapply Forall_impl; [exact F1|].
    intros c (ti & _ & [->|[->|[t ->]]]) typeName it; discriminate.
Qed.

Lemma addContentItemNode_NoDup_ids m s typeName :
  typeName <> assetTypeName ->
  typeName <> itemLinkTypeName ->
  NoDup (map node_id (nodesOf s typeName)) ->
  NoDup (map node_id (nodesOf (addContentItemNode m s) typeName)).
Proof.
  intros Hna Hnl Hnd. unfold addContentItemNode.
  set (tm := item_typeName (item m)).
  set (s1 := getCollection tm s).
  assert (Hnd1 : NoDup (map node_id (nodesOf s1 typeName)))
    by (unfold s1; now rewrite nodesOf_getCollection).
  destruct (GridsomeStore.findNode s1 tm (item_id (item m)))
    as [existingNode|] eqn:Hfind.
  { now rewrite (addContentNode_found _ _ _ _ Hfind). }
  destruct (decide (typeName = tm)) as [->|Hne].
  - rewrite (nodesOf_addContentNode_fresh tm m s1
               (hasCollection_getCollection _ _) Hna Hnl Hfind).
    rewrite map_app. apply NoDup_app. split; [exact Hnd1|].
    split; [|apply NoDup_singleton].
    intros x Hx Hx'. apply list_elem_of_singleton in Hx'. subst x.
    rewrite findNode_nodesOf, find_node_id_None in Hfind. now apply Hfind.
  - rewrite (nodesOf_steps_keeps typeName s1); [exact Hnd1|].
    eapply steps_weaken; [|apply steps_addContentNode].
    intros c. now apply contentNodeCall_keepsNodes.
Qed.

Lemma addContentItemNodes_NoDup_ids l s typeName :
  typeName <> assetTypeName ->
  typeName <> itemLinkTypeName ->
  NoDup (map node_id (nodesOf s typeName)) ->
  NoDup (map node_id (nodesOf (addContentItemNodes l s) typeName)).
Proof.
  intros Hna Hnl. revert s.
  induction l as [|m l IH]; intros s Hnd; [exact Hnd|].
  unfold addContentItemNodes in *. simpl. apply IH.
  now apply addContentItemNode_NoDup_ids.
Qed.

(** X11: when no term list is missing, after [load] every linked item
    and content item of every content type that has content items is
    present in the collection of its type; and if the collections of the
    four kinds of node have different names and the content collections
    held no id twice to begin with, each of these ids is held by exactly
    one node of its collection, however often the entry was fetched. *)
Theorem load_inserts_content_items_once deliveryClient s :
  forallb wellFormedTaxonomy (client_taxonomies deliveryClient) = true ->
  exists s',
    load deliveryClient s = (Returned tt, s') /\
    (forall node, node ∈ nodesOfClient deliveryClient -> present s' node) /\
    (namesApart deliveryClient ->
     (forall node,
         node ∈ nodesOfClient deliveryClient ->
         NoDup (map node_id (nodesOf s (item_typeName (item node))))) ->
     forall node,
       node ∈ nodesOfClient deliveryClient ->
       countId s' (item_typeName (item node)) (item_id (item node)) = 1).
Proof.
  intros Hwf. exists (loaded deliveryClient s).
  split; [now apply load_loaded|].
  unfold loaded, addSchemaResolvers.
  set (nodes := nodesOfClient deliveryClient).
  set (s1 := snd (addTaxonomyGroupNodes _ s)).
  set (s2 := addContentItemNodes nodes s1).
  assert (Hpresent : forall node,
             node ∈ nodes -> present (addAssetSchemaResolvers s2) node).
  { intros node Hin.
    apply (present_nodesOf s2);
      [apply nodesOf_addAssetSchemaResolvers|].
    now apply addContentItemNodes_present. }
  split; [exact Hpresent|].
  intros (Hal & Htax & Hnodes) Hnd node Hin.
  rewrite Forall_forall in Hnodes.
  destruct (Hnodes node Hin) as (Hna & Hnl & Hnt).
  rewrite Forall_forall in Hnt.
  set (typeName := item_typeName (item node)) in *.
  assert (H1 : nodesOf s1 typeName = nodesOf s typeName).
  { apply nodesOf_steps_keeps.
    eapply steps_weaken; [|apply steps_addTaxonomyGroupNodes].
    intros c (ti & Hti & Hc).
    eapply taxonomyGroupCall_keepsNodes; [|exact Hc]. now apply Hnt. }
  assert (H2 : NoDup (map node_id (nodesOf s2 typeName))).
  { apply addContentItemNodes_NoDup_ids; [assumption..|].
    rewrite H1. now apply Hnd. }
  destruct (Hpresent node Hin) as [n Hn]. fold typeName in Hn.
  rewrite findNode_nodesOf in Hn.
  unfold countId. rewrite nodesOf_addAssetSchemaResolvers in *.
  apply count_NoDup_ids; [exact H2|].
  destruct (decide (item_id (item node) ∈ map node_id (nodesOf s2 typeName)))
    as [Hyes|Hno]; [exact Hyes|].
  apply find_node_id_None in Hno. congruence.
Qed.

Lemma steps_load deliveryClient s :
  steps (fun _ => True) s (snd (load deliveryClient s)).
Proof.
  unfold load. apply steps_bind.
  - eapply steps_weaken; [|apply steps_addTaxonomyGroupNodes]. now intros.
  - intros _ s1. apply steps_bind.
    + apply steps_forEach. intros codename s2 _. unfold lift. cbn [snd].
      rewrite addContentNodes_nodesOfContent.
      eapply steps_weaken; [|apply steps_addContentItemNodes]. now intros.
    + intros _ s2. unfold lift. cbn [snd]. unfold addSchemaResolvers.
      eapply steps_weaken; [|apply steps_addAssetSchemaResolvers].
      now intros.
Qed.

(** X12: whether it returns or throws, [load] only adds to the store.
    Every collection the store had is still there, with the nodes it had
    as the first of its nodes, in the same order; so no node is removed or
    replaced, and looking an id up where it was found before gives the
    same node. *)
Theorem load_only_adds deliveryClient s :
  let s' := snd (load deliveryClient s) in
  (forall c, hasCollection s c -> hasCollection s' c) /\
  (forall c, nodesOf s c `prefix_of` nodesOf s' c) /\
  (forall c id n,
      GridsomeStore.findNode s c id = Some n ->
      GridsomeStore.findNode s' c id = Some n) /\
  schemaResolvers s `prefix_of` schemaResolvers s' /\
  calls s `prefix_of` calls s'.
Proof.
  intros s'. destruct (steps_load deliveryClient s) as [Hext _].
  fold s' in Hext. split; [|split; [|split; [|split]]].
  - intros c. now apply hasCollection_extends.
  - intros c. now apply nodesOf_extends.
  - intros c id n. now apply findNode_extends.
  - apply Hext.
  - apply Hext.
Qed.

End KenticoKontentSource.

(** ** Worked cases *)

Lemma addTaxonomyTermNodes_inserts_preorder_witness :
  forallb wellFormed [termA] = true /\
  hasCollection (storeWith "Taxonomy") "Taxonomy" /\
  exists s',
    addTaxonomyTermNodes "Taxonomy" (Some [termA]) (storeWith "Taxonomy") =
      (Returned tt, s') /\
    map node_id (nodesOf s' "Taxonomy") = ["A"; "B"; "D"; "C"].
Proof.
  assert (Hwf : forallb wellFormed [termA] = true) by reflexivity.
  assert (Hc : hasCollection (storeWith "Taxonomy") "Taxonomy")
    by (eexists; reflexivity).
  split; [exact Hwf|]. split; [exact Hc|].
  destruct (addTaxonomyTermNodes_inserts_preorder "Taxonomy" [termA]
              (storeWith "Taxonomy") Hwf Hc) as (s' & Hrun & Hnodes & _).
  exists s'. split; [exact Hrun|].
  rewrite Hnodes. reflexivity.
Defined.

Lemma addTaxonomyTermNodes_returns_iff_witness :
  fst (addTaxonomyTermNodes "Taxonomy" (Some [termA]) (storeWith "Taxonomy"))
  = Returned tt.
Proof.
  apply addTaxonomyTermNodes_returns_iff.
  exists [termA]. split; reflexivity.
Defined.

(** The whole load of the example client: what each collection holds in
    the end, by id, and the resolvers registered. *)
Example load_exampleClient :
  let s' := snd (load "Asset" "ItemLink" exampleGetTypeName exampleClient
                      emptyStore) in
  map node_id (nodesOf s' "TaxonomyTopics") = ["A"; "B"; "D"; "C"] /\
  map node_id (nodesOf s' "Author") = ["P1"] /\
  map node_id (nodesOf s' "Article") = ["N1"] /\
  map node_id (nodesOf s' "Asset") = ["A1"] /\
  map node_id (nodesOf s' "ItemLink") = ["P1"; "N1"] /\
  schemaResolvers s' = ["Asset"].
Proof. repeat split; vm_compute; reflexivity. Qed.

(** A type without content items adds nothing, whatever its linked
    items. *)
Example addContentNodes_only_linked_items :
  addContentNodes "Asset" "ItemLink" exampleGetTypeName
                  (mkContent [] [("P1", authorP1)]) emptyStore = emptyStore.
Proof. reflexivity. Qed.

Lemma addContentNodes_no_items_witness :
  content_items (mkContent [] [("P1", authorP1)]) = [] /\
  addContentNodes "Asset" "ItemLink" exampleGetTypeName
                  (mkContent [] [("P1", authorP1)]) emptyStore = emptyStore /\
  ~ present (addContentNodes "Asset" "ItemLink" exampleGetTypeName
               (mkContent [] [("P1", authorP1)]) emptyStore) authorP1.
Proof.
  assert (Hitems : content_items (mkContent [] [("P1", authorP1)]) = [])
    by reflexivity.
  split; [exact Hitems|].
  destruct (addContentNodes_no_items "Asset" "ItemLink" exampleGetTypeName
              (mkContent [] [("P1", authorP1)]) emptyStore Hitems)
    as (Hsame & _ & Hpresent).
  split; [exact Hsame|].
  intros Hp. destruct (Hpresent authorP1) as [x Hx]; [left|exact Hp|].
  discriminate.
Defined.



Lemma addLinkedItemFields_first_type_witness :
  let authors := mkLinkedItemField "authors"
                   [mkLinkedItem "P1" "Author";
                    mkLinkedItem "O1" "Organisation"] in
  authors ∈ linkedItemFields articleN1 /\
  CallAddReference "Article" "authors" "Author"
    ∈ newCalls (storeWith "Article")
               (addLinkedItemFields "Article" articleN1 (storeWith "Article")) /\
  CallAddReference "Article" "authors" "Organisation"
    ∉ newCalls (storeWith "Article")
               (addLinkedItemFields "Article" articleN1 (storeWith "Article")).
Proof.
  intros authors.
  assert (Hin : authors ∈ linkedItemFields articleN1)
    by (right; left).
  split; [exact Hin|].
  destruct (addLinkedItemFields_first_type "Article" articleN1
              (storeWith "Article") authors
              (mkLinkedItem "P1" "Author") [mkLinkedItem "O1" "Organisation"]
              Hin eq_refl) as (_ & Hfirst & Honly).
  split; [exact Hfirst|].
  intros Hother.
  assert (Hnd : NoDup (map linked_fieldName (linkedItemFields articleN1))).
  { apply NoDup_cons. split; [|apply NoDup_singleton].
    intros H. apply list_elem_of_singleton in H. discriminate. }
  destruct (Honly Hnd _ _ Hother) as [_ Habs]. discriminate.
Defined.

Lemma reference_declaration_asymmetry_witness :
  (forall c t,
      CallAddReference c "related" t
        ∉ newCalls (storeWith "Article")
            (addLinkedItemFields "Article" articleN1 (storeWith "Article"))) /\
  CallAddReference "Article" "images" "Asset"
    ∈ newCalls (storeWith "Article")
        (addAssetFields "Asset" "Article" articleN1 (storeWith "Article")).
Proof.
  destruct (reference_declaration_asymmetry "Asset" "Article" articleN1
              (storeWith "Article")) as [Hlinked Hasset].
  split.
  - apply Hlinked. intros f Hf Hname.
    apply elem_of_cons in Hf as [->|Hf]; [reflexivity|].
    apply list_elem_of_singleton in Hf. subst f. discriminate.
  - apply (Hasset (mkAssetField "images" [])). left.
Defined.

Lemma linked_items_before_content_items_witness :
  content_items articleContent <> [] /\
  present (addContentItemNodes "Asset" "ItemLink" exampleGetTypeName
             [authorP1] emptyStore) authorP1 /\
  (forall it,
      item_id it = "P1" ->
      CallAddNode "Author" (NItem it)
        ∉ newCalls
            (addContentItemNodes "Asset" "ItemLink" exampleGetTypeName
               [authorP1] emptyStore)
            (addContentNodes "Asset" "ItemLink" exampleGetTypeName
               articleContent emptyStore)).
Proof.
  assert (Hne : content_items articleContent <> []) by discriminate.
  split; [exact Hne|].
  destruct (linked_items_before_content_items "Asset" "ItemLink"
              exampleGetTypeName articleContent emptyStore Hne)
    as (_ & Hpresent & _ & Habsent).
  split.
  - apply Hpresent. left.
  - intros it Hid. apply (Habsent authorP1 it); [left|exact Hid].
Defined.

Lemma asset_collection_side_effect_witness :
  forallb wellFormedTaxonomy (client_taxonomies plainClient) = true /\
  assetsOf componentC1 = [] /\
  exists s',
    load "Asset" "ItemLink" exampleGetTypeName plainClient emptyStore
      = (Returned tt, s') /\
    hasCollection s' "Asset" /\
    nodesOf s' "Asset" = [] /\
    schemaResolvers s' = [].
Proof.
  assert (Hwf : forallb wellFormedTaxonomy (client_taxonomies plainClient)
                = true) by reflexivity.
  split; [exact Hwf|]. split; [reflexivity|].
  destruct (asset_collection_side_effect "Asset" "ItemLink"
              exampleGetTypeName) as (_ & _ & _ & Hload).
  destruct (Hload plainClient emptyStore Hwf)
    as (s' & Hrun & Hc & Hnodes & Hempty & _).
  assert (Hnone : nodesOf s' "Asset" = [])
    by (rewrite Hnodes; reflexivity).
  exists s'. split; [exact Hrun|]. split; [exact Hc|].
  split; [exact Hnone|]. exact (Hempty Hnone).
Defined.

Lemma assets_inserted_once_witness :
  forallb wellFormedTaxonomy (client_taxonomies exampleClient) = true /\
  assetNamesApart "Asset" "ItemLink" exampleClient /\
  namesApart "Asset" "ItemLink" exampleClient /\
  NoDup (assetIds "Asset" emptyStore) /\
  exists s',
    load "Asset" "ItemLink" exampleGetTypeName exampleClient emptyStore
      = (Returned tt, s') /\
    countId s' "Asset" "A1" = 1.
Proof.
  assert (Hwf : forallb wellFormedTaxonomy (client_taxonomies exampleClient)
                = true) by reflexivity.
  assert (Hasset : assetNamesApart "Asset" "ItemLink" exampleClient).
  { split; [discriminate|]. split.
    - repeat constructor; discriminate.
    - repeat constructor; discriminate. }
  assert (Hnames : namesApart "Asset" "ItemLink" exampleClient).
  { split; [discriminate|]. split.
    - repeat constructor; discriminate.
    - repeat constructor; discriminate. }
  assert (Hnd : NoDup (assetIds "Asset" emptyStore)) by constructor.
  split; [exact Hwf|]. split; [exact Hasset|]. split; [exact Hnames|].
  split; [exact Hnd|].
  destruct (assets_inserted_once "Asset" "ItemLink" exampleGetTypeName
              exampleClient emptyStore Hwf Hasset Hnd)
    as (s' & Hrun & _ & Hone).
  exists s'. split; [exact Hrun|].
  apply (Hone Hnames) with (n := articleN1) (a := assetA1).
  - intros n _ [x Hx]. discriminate.
  - intros n m Hn Hm Hty Hid.
    apply list_elem_of_In in Hn, Hm. simpl in Hn, Hm.
    destruct Hn as [<-|[<-|[<-|[]]]]; destruct Hm as [<-|[<-|[<-|[]]]];
      reflexivity || discriminate.
  - right. left.
  - right. left.
Defined.

(** C5, refuted as stated: an asset that a fetched content node refers
    to may end up on no node, or on two.  The author fetched as a linked
    item with the asset [A2] and as a content item with the asset [A1]:
    the second copy is skipped as a duplicate and [A1] is never inserted.
    The author already in the store: skipped likewise.  A content type
    called [Asset] whose item shares its id with its asset: the Asset
    collection holds the id twice. *)
Lemma assets_not_inserted_or_twice :
  (assetA1 ∈ assetsOf authorP1 /\
   authorP1 ∈ nodesOfClient copiesClient /\
   countId (snd (load "Asset" "ItemLink" exampleGetTypeName copiesClient
                      emptyStore)) "Asset" "A1" = 0) /\
  (authorP1 ∈ nodesOfClient authorClient /\
   countId (snd (load "Asset" "ItemLink" exampleGetTypeName authorClient
                      storeWithAuthor)) "Asset" "A1" = 0) /\
  (assetA1 ∈ assetsOf assetTypedNode /\
   assetTypedNode ∈ nodesOfClient clashClient /\
   countId (snd (load "Asset" "ItemLink" exampleGetTypeName clashClient
                      emptyStore)) "Asset" "A1" = 2).
Proof.
  split; [|split].
  - split; [left|]. split; [right; left|]. vm_compute. reflexivity.
  - split; [left|]. vm_compute. reflexivity.
  - split; [left|]. split; [left|]. vm_compute. reflexivity.
Qed.

(** C3, refuted as stated: a term without a [terms] array makes the
    insertion throw, and neither that term nor its later sibling [C] is
    inserted. *)
Lemma addTaxonomyTermNodes_missing_terms_throws :
  let run := addTaxonomyTermNodes "Taxonomy" (Some [termBad; termC])
                                  (storeWith "Taxonomy") in
  fst run = Thrown (TypeError "Cannot read property 'map' of undefined") /\
  nodesOf (snd run) "Taxonomy" = [].
Proof. split; reflexivity. Qed.

(** ** Worked cases of the further properties *)

Lemma getCollection_get_or_create_witness :
  collections emptyStore !! "Article" = None /\
  collections (getCollection "Article" emptyStore) !! "Article"
    = Some emptyCollection /\
  getCollection "Article" (getCollection "Article" emptyStore)
    = getCollection "Article" emptyStore.
Proof.
  assert (Hnone : collections emptyStore !! "Article" = None) by reflexivity.
  split; [exact Hnone|].
  destruct (getCollection_get_or_create "Article" emptyStore)
    as (_ & _ & _ & _ & Hcreated & Hagain).
  split; [now apply Hcreated|exact Hagain].
Defined.

Lemma addContentItemNodes_idempotent_witness :
  authorP1 ∈ [authorP1; articleN1] /\
  present (addContentItemNodes "Asset" "ItemLink" exampleGetTypeName
             [authorP1; articleN1] emptyStore) authorP1.
Proof.
  assert (Hin : authorP1 ∈ [authorP1; articleN1]) by left.
  split; [exact Hin|].
  destruct (addContentItemNodes_idempotent "Asset" "ItemLink"
              exampleGetTypeName [authorP1; articleN1] articleContent
              emptyStore) as (Hpresent & _ & _).
  now apply Hpresent.
Defined.

Lemma addTaxonomyTermNodes_stops_at_missing_witness :
  forallb hasTerms (flat_map walk [termC; termBad; termD]) = false /\
  hasCollection (storeWith "TaxonomyTags") "TaxonomyTags" /\
  let run := addTaxonomyTermNodes "TaxonomyTags"
               (Some [termC; termBad; termD]) (storeWith "TaxonomyTags") in
  (exists e, fst run = Thrown e) /\
  map node_id (nodesOf (snd run) "TaxonomyTags") = ["C"].
Proof.
  assert (Hbad : forallb hasTerms (flat_map walk [termC; termBad; termD])
                 = false) by reflexivity.
  assert (Hc : hasCollection (storeWith "TaxonomyTags") "TaxonomyTags")
    by (eexists; reflexivity).
  split; [exact Hbad|]. split; [exact Hc|].
  destruct (addTaxonomyTermNodes_stops_at_missing "TaxonomyTags"
              [termC; termBad; termD] (storeWith "TaxonomyTags"))
    as (_ & Hnodes & _ & Hthrows).
  split; [now apply Hthrows|].
  rewrite (Hnodes Hc). reflexivity.
Defined.

Lemma addTaxonomyGroupNodes_in_order_witness :
  forallb wellFormedTaxonomy (client_taxonomies exampleClient) = true /\
  newCalls emptyStore
    (snd (addTaxonomyGroupNodes (client_taxonomies exampleClient) emptyStore))
  = CallAddCollection "TaxonomyTopics"
      :: CallAddReference "TaxonomyTopics" "terms" "TaxonomyTopics"
      :: map (fun t => CallAddNode "TaxonomyTopics" (NTerm t))
             (preorderForest [termA]) /\
  List.filter (fun c => negb (isAddCollection c))
    (newCalls emptyStore
       (snd (addTaxonomyGroupNodes (client_taxonomies exampleClient)
                                   emptyStore)))
  = flat_map taxonomyGroupCalls (client_taxonomies exampleClient).
Proof.
  assert (Hwf : forallb wellFormedTaxonomy (client_taxonomies exampleClient)
                = true) by reflexivity.
  split; [exact Hwf|]. split; [reflexivity|].
  now destruct (addTaxonomyGroupNodes_in_order
                  (client_taxonomies exampleClient) emptyStore Hwf)
    as (_ & Hfilter & _).
Defined.

Lemma load_throws_on_missing_terms_witness :
  forallb wellFormedTaxonomy (client_taxonomies brokenClient) = false /\
  exists e s',
    load "Asset" "ItemLink" exampleGetTypeName brokenClient emptyStore
      = (Thrown e, s') /\
    schemaResolvers s' = [] /\
    forall collection it,
      CallAddNode collection (NItem it) ∉ newCalls emptyStore s'.
Proof.
  assert (Hbad : forallb wellFormedTaxonomy (client_taxonomies brokenClient)
                 = false) by reflexivity.
  split; [exact Hbad|].
  destruct (load_throws_on_missing_terms "Asset" "ItemLink"
              exampleGetTypeName brokenClient emptyStore Hbad)
    as (e & s' & Hrun & Hres & _ & Hnone).
  exists e, s'. split; [exact Hrun|]. split; [exact Hres|exact Hnone].
Defined.

Lemma addContentNode_declares_before_inserting_witness :
  GridsomeStore.findNode (storeWith "Article") "Article" "N1" = None /\
  exists before after,
    newCalls (storeWith "Article")
      (snd (addContentNode "Asset" "ItemLink" exampleGetTypeName
                           "Article" articleN1 (storeWith "Article")))
    = before ++ CallAddNode "Article" (NItem (item articleN1)) :: after /\
    CallAddReference "Article" "authors" "Author" ∈ before /\
    CallAddReference "Article" "topics" "TaxonomyTopics" ∈ before /\
    CallAddReference "Article" "images" "Asset" ∈ before.
Proof.
  assert (Hfresh : GridsomeStore.findNode (storeWith "Article") "Article" "N1"
                   = None) by reflexivity.
  split; [exact Hfresh|].
  destruct (addContentNode_declares_before_inserting "Asset" "ItemLink"
              exampleGetTypeName "Article" articleN1 (storeWith "Article")
              Hfresh)
    as (before & after & Hcalls & _ & _ & Hlinked & Htaxonomy & Hasset).
  exists before, after. split; [exact Hcalls|]. split; [|split].
  - apply (Hlinked (mkLinkedItemField "authors"
                      [mkLinkedItem "P1" "Author";
                       mkLinkedItem "O1" "Organisation"])
                   (mkLinkedItem "P1" "Author")
                   [mkLinkedItem "O1" "Organisation"]);
      [right; left|reflexivity].
  - apply (Htaxonomy (mkTaxonomyField "topics" "Topics")). left.
  - apply (Hasset (mkAssetField "images" [])). left.
Defined.

Lemma addContentNode_item_link_witness :
  GridsomeStore.findNode (storeWith "Article") "Article" "N1" = None /\
  map node_id
    (nodesOf (snd (addContentNode "Asset" "ItemLink" exampleGetTypeName
                                  "Article" articleN1 (storeWith "Article")))
             "ItemLink") = ["N1"] /\
  collections
    (snd (addContentNode "Asset" "ItemLink" exampleGetTypeName
                         "Quote" componentC1 (storeWith "Quote")))
    !! "ItemLink" = None.
Proof.
  assert (Hfresh : GridsomeStore.findNode (storeWith "Article") "Article" "N1"
                   = None) by reflexivity.
  split; [exact Hfresh|].
  destruct (addContentNode_item_link "Asset" "ItemLink" exampleGetTypeName
              "Article" articleN1 (storeWith "Article") Hfresh)
    as [Hlink _]; [discriminate..|].
  destruct (addContentNode_item_link "Asset" "ItemLink" exampleGetTypeName
              "Quote" componentC1 (storeWith "Quote"))
    as [_ Hnone]; [reflexivity|discriminate..|].
  split.
  - rewrite Hlink by reflexivity. reflexivity.
  - rewrite Hnone by reflexivity. reflexivity.
Defined.

Lemma addTaxonomyFields_declares_every_field_witness :
  "TaxonomyTopics" <> "Article" /\
  newCalls (storeWith "Article")
    (addTaxonomyFields exampleGetTypeName "Article" articleN1
                       (storeWith "Article"))
  = [CallAddReference "Article" "topics" "TaxonomyTopics"] /\
  collections
    (addTaxonomyFields exampleGetTypeName "Article" articleN1
                       (storeWith "Article")) !! "TaxonomyTopics" = None.
Proof.
  assert (Hne : "TaxonomyTopics" <> "Article") by discriminate.
  split; [exact Hne|].
  destruct (addTaxonomyFields_declares_every_field exampleGetTypeName
              "Article" articleN1 (storeWith "Article"))
    as (Hcalls & _ & _ & Hother).
  split; [exact Hcalls|].
  rewrite (Hother "TaxonomyTopics" Hne). reflexivity.
Defined.

Lemma addAssetFields_first_occurrence_witness :
  nodesOf (addAssetFields "Asset" "Article" articleN1 (storeWith "Article"))
          "Asset" = [NAsset assetA1] /\
  assetA1 ∈ assetsOf articleN1.
Proof.
  destruct (addAssetFields_first_occurrence "Asset" "Article" articleN1
              (storeWith "Article")) as (Hnodes & _ & Hsub).
  split; [rewrite Hnodes; reflexivity|].
  apply (Hsub assetA1). left.
Defined.

Lemma load_taxonomy_then_content_witness :
  forallb wellFormedTaxonomy (client_taxonomies exampleClient) = true /\
  exists s' taxonomyCalls contentCalls resolverCalls,
    load "Asset" "ItemLink" exampleGetTypeName exampleClient emptyStore
      = (Returned tt, s') /\
    newCalls emptyStore s' = taxonomyCalls ++ contentCalls ++ resolverCalls /\
    Forall (fun c => forall typeName t, c <> CallAddNode typeName (NTerm t))
           (contentCalls ++ resolverCalls) /\
    Forall (fun c => forall typeName it, c <> CallAddNode typeName (NItem it))
           taxonomyCalls.
Proof.
  assert (Hwf : forallb wellFormedTaxonomy (client_taxonomies exampleClient)
                = true) by reflexivity.
  split; [exact Hwf|].
  destruct (load_taxonomy_then_content "Asset" "ItemLink" exampleGetTypeName
              exampleClient emptyStore Hwf)
    as (s' & t & c & r & Hrun & Hcalls & _ & _ & _ & Hterms & Hitems).
  exists s', t, c, r. repeat split; assumption.
Defined.

Lemma load_inserts_content_items_once_witness :
  forallb wellFormedTaxonomy (client_taxonomies exampleClient) = true /\
  namesApart "Asset" "ItemLink" exampleClient /\
  exists s',
    load "Asset" "ItemLink" exampleGetTypeName exampleClient emptyStore
      = (Returned tt, s') /\
    present s' authorP1 /\
    countId s' "Author" "P1" = 1.
Proof.
  assert (Hwf : forallb wellFormedTaxonomy (client_taxonomies exampleClient)
                = true) by reflexivity.
  assert (Hnames : namesApart "Asset" "ItemLink" exampleClient).
  { split; [discriminate|]. split.
    - repeat constructor; discriminate.
    - repeat constructor; discriminate. }
  split; [exact Hwf|]. split; [exact Hnames|].
  destruct (load_inserts_content_items_once "Asset" "ItemLink"
              exampleGetTypeName exampleClient emptyStore Hwf)
    as (s' & Hrun & Hpresent & Honce).
  exists s'. split; [exact Hrun|]. split.
  - apply Hpresent. left.
  - apply (Honce Hnames) with (node := authorP1).
    + intros node _. constructor.
    + left.
Defined.

Lemma load_only_adds_witness :
  hasCollection (storeWith "Article") "Article" /\
  hasCollection
    (snd (load "Asset" "ItemLink" exampleGetTypeName exampleClient
               (storeWith "Article"))) "Article".
Proof.
  assert (Hc : hasCollection (storeWith "Article") "Article")
    by (eexists; reflexivity).
  split; [exact Hc|].
  destruct (load_only_adds "Asset" "ItemLink" exampleGetTypeName
              exampleClient (storeWith "Article")) as (Hhas & _).
  now apply Hhas.
Defined.

(** ** The image URL resolver *)

Module AssetSchemaResolversFacts.
Import AssetSchemaResolvers.

Lemma builder_calls_call c b :
  builder_calls (call c b) = builder_calls b ++ [c].
Proof. reflexivity. Qed.

Lemma builder_calls_switchType type b :
  builder_calls (switchType type b) =
  builder_calls b
    ++ optional WithAutomaticFormat (lookupFormat mediaTypeFormats type).
Proof.
  unfold switchType, lookupFormat, mediaTypeFormats. cbn [find fst snd].
  repeat (destruct (String.eqb (toLowerCase type) _);
          [reflexivity|]).
  simpl. now rewrite app_nil_r.
Qed.

Lemma builder_calls_switchFormat name b :
  builder_calls (switchFormat name b) =
  builder_calls b ++ optional WithFormat (lookupFormat namedFormats name).
Proof.
  unfold switchFormat, lookupFormat, namedFormats. cbn [find fst snd].
  repeat (destruct (String.eqb (toLowerCase name) _);
          [reflexivity|]; cbn [orb]).
  simpl. now rewrite app_nil_r.
Qed.

Lemma toLowerCase_idempotent name :
  toLowerCase (toLowerCase name) = toLowerCase name.
Proof.
  induction name as [|c name IH]; simpl; [reflexivity|].
  f_equal; [|exact IH]. clear.
  destruct c as [[] [] [] [] [] [] [] []]; reflexivity.
Qed.

(** C2 (as the code has it): the resolver applies, in this order, the
    dimensions, the automatic format when [automaticFormat] is true, the
    explicit format whenever a format string is given -- also after an
    automatic one --, the compression, the quality and the dpr.  Both
    format steps look the name up whatever its case and leave the format
    unset when the name is not in their table. *)
Theorem resolve_applies_both_formats obj args :
  builder_url (resolveBuilder obj args) = asset_url obj /\
  builder_calls (resolveBuilder obj args) =
    dimensionCalls args
    ++ automaticFormatCalls obj args
    ++ explicitFormatCalls args
    ++ compressionCalls args
    ++ optional WithQuality (quality args)
    ++ optional WithDpr (dpr args) /\
  (forall name,
      lookupFormat namedFormats (toLowerCase name) =
      lookupFormat namedFormats name) /\
  (forall type,
      lookupFormat mediaTypeFormats (toLowerCase type) =
      lookupFormat mediaTypeFormats type).
Proof.
  split; [|split; [|split]].
  - destruct args as [w h af f l q d].
    destruct obj as [i u t]. unfold resolveBuilder. cbn [asset_url asset_type
      width height automaticFormat format lossless quality dpr].
    destruct w, h, af as [[]|], f, l, q, d; reflexivity || (
      unfold switchType, switchFormat;
      repeat match goal with
             | |- context [if ?b then _ else _] => destruct b
             end; reflexivity).
  - destruct args as [w h af f l q d].
    unfold resolveBuilder, dimensionCalls, automaticFormatCalls,
      explicitFormatCalls, compressionCalls.
    cbn [width height automaticFormat format lossless quality dpr].
    destruct w, h, af as [[]|], f, l, q, d; cbn [optional];
      rewrite ?builder_calls_call, ?builder_calls_switchFormat,
        ?builder_calls_call, ?builder_calls_switchType,
        ?builder_calls_call;
      cbn [newImageUrlBuilder builder_calls];
      rewrite <- ?app_assoc; rewrite ?app_nil_r; reflexivity.
  - intros name. unfold lookupFormat.
    now rewrite toLowerCase_idempotent.
  - intros type. unfold lookupFormat.
    now rewrite toLowerCase_idempotent.
Qed.

(** C2, refuted as stated: with [automaticFormat: true] and
    [format: "webp"] on a PNG asset the explicit format is applied too,
    after the automatic one, where exclusive selection would apply the
    automatic format alone. *)
Lemma explicit_format_applied_after_automatic :
  automaticFormat automaticAndWebp = Some true /\
  builder_calls (resolveBuilder pngAsset automaticAndWebp) =
    [WithAutomaticFormat Png; WithFormat Webp] /\
  exclusiveFormatCalls pngAsset automaticAndWebp =
    [WithAutomaticFormat Png] /\
  builder_calls (resolveBuilder pngAsset automaticAndWebp) <>
    dimensionCalls automaticAndWebp
    ++ exclusiveFormatCalls pngAsset automaticAndWebp
    ++ compressionCalls automaticAndWebp
    ++ optional WithQuality (quality automaticAndWebp)
    ++ optional WithDpr (dpr automaticAndWebp).
Proof. repeat split; try reflexivity. discriminate. Qed.

(** A PNG asset with [automaticFormat: true, width: 300]: the width is
    applied first, then the format. *)
Example resolve_png_width_300 :
  builder_calls (resolveBuilder pngAsset automaticAndWidth) =
    [WithWidth 300; WithAutomaticFormat Png].
Proof. reflexivity. Qed.

Example lookupFormat_ignores_case :
  lookupFormat namedFormats "PNG" = Some Png /\
  lookupFormat namedFormats "WebP" = Some Webp /\
  lookupFormat namedFormats "bmp" = None /\
  lookupFormat mediaTypeFormats "IMAGE/JPEG" = Some Jpg /\
  lookupFormat mediaTypeFormats "image/webp" = None.
Proof. repeat split; reflexivity. Qed.

(** The calls of the resolver, step by step. *)
Lemma builder_calls_resolveBuilder obj args :
  builder_calls (resolveBuilder obj args) =
    dimensionCalls args
    ++ automaticFormatCalls obj args
    ++ explicitFormatCalls args
    ++ compressionCalls args
    ++ optional WithQuality (quality args)
    ++ optional WithDpr (dpr args).
Proof.
  destruct args as [w h af f l q d].
  unfold resolveBuilder, dimensionCalls, automaticFormatCalls,
    explicitFormatCalls, compressionCalls.
  cbn [width height automaticFormat format lossless quality dpr].
  destruct w, h, af as [[]|], f, l, q, d; cbn [optional];
    rewrite ?builder_calls_call, ?builder_calls_switchFormat,
      ?builder_calls_call, ?builder_calls_switchType,
      ?builder_calls_call;
    cbn [newImageUrlBuilder builder_calls];
    rewrite <- ?app_assoc; rewrite ?app_nil_r; reflexivity.
Qed.

Lemma elem_of_optional {A} (f : A -> BuilderCall) (o : option A) c :
  c ∈ optional f o <-> exists a, o = Some a /\ c = f a.
Proof.
  destruct o as [a|]; simpl.
  - rewrite list_elem_of_singleton. split.
    + intros ->. now exists a.
    + intros (a' & Ha & ->). now injection Ha as ->.
  - split; [intros H; inversion H|intros (a & Ha & _); discriminate].
Qed.

Lemma length_optional {A} (f : A -> BuilderCall) (o : option A) :
  length (optional f o) <= 1.
Proof. destruct o; simpl; lia. Qed.

#[local] Set Warnings "-clear-no-such-hyp".

(** X13: the resolver makes a builder call for an argument exactly when
    the argument is given, and with the value given.  [automaticFormat:
    false] makes no call, like [null], while [lossless: false] asks for
    lossy compression; a format call is made only for a media type or a
    format name that is in the table.  At most seven calls are made. *)
Theorem resolve_call_iff obj args :
  let made := builder_calls (resolveBuilder obj args) in
  (forall w, WithWidth w ∈ made <-> width args = Some w) /\
  (forall h, WithHeight h ∈ made <-> height args = Some h) /\
  (forall f, WithAutomaticFormat f ∈ made <->
             automaticFormat args = Some true /\
             lookupFormat mediaTypeFormats (asset_type obj) = Some f) /\
  (forall f, WithFormat f ∈ made <->
             exists name, format args = Some name /\
                          lookupFormat namedFormats name = Some f) /\
  (WithCompression Lossless ∈ made <-> lossless args = Some true) /\
  (WithCompression Lossy ∈ made <-> lossless args = Some false) /\
  (forall q, WithQuality q ∈ made <-> quality args = Some q) /\
  (forall d, WithDpr d ∈ made <-> dpr args = Some d) /\
  length made <= 7.
Proof.
  cbv zeta. rewrite builder_calls_resolveBuilder.
  unfold dimensionCalls, automaticFormatCalls, explicitFormatCalls,
    compressionCalls.
  set (automatic := match automaticFormat args with
                    | Some true =>
                        optional WithAutomaticFormat
                          (lookupFormat mediaTypeFormats (asset_type obj))
                    | _ => []
                    end).
  set (explicit := match format args with
                   | Some name =>
                       optional WithFormat (lookupFormat namedFormats name)
                   | None => []
                   end).
  assert (Hauto : forall c,
             c ∈ automatic <->
             exists f, automaticFormat args = Some true /\
                       lookupFormat mediaTypeFormats (asset_type obj) = Some f /\
                       c = WithAutomaticFormat f).
  { intros c. unfold automatic.
    destruct (automaticFormat args) as [[]|];
      rewrite ?elem_of_optional, ?elem_of_nil; naive_solver. }
  assert (Hexplicit : forall c,
             c ∈ explicit <->
             exists name f, format args = Some name /\
                            lookupFormat namedFormats name = Some f /\
                            c = WithFormat f).
  { intros c. unfold explicit.
    destruct (format args) as [name|];
      rewrite ?elem_of_optional, ?elem_of_nil; naive_solver. }
  assert (Hlen1 : length automatic <= 1).
  { unfold automatic. destruct (automaticFormat args) as [[]|];
      [apply length_optional|simpl; lia..]. }
  assert (Hlen2 : length explicit <= 1).
  { unfold explicit. destruct (format args);
      [apply length_optional|simpl; lia]. }
  split_and!.
  - intros w. rewrite !elem_of_app, Hauto, Hexplicit, !elem_of_optional.
    naive_solver.
  - intros h. rewrite !elem_of_app, Hauto, Hexplicit, !elem_of_optional.
    naive_solver.
  - intros f. rewrite !elem_of_app, Hauto, Hexplicit, !elem_of_optional.
    naive_solver.
  - intros f. rewrite !elem_of_app, Hauto, Hexplicit, !elem_of_optional.
    naive_solver.
  - rewrite !elem_of_app, Hauto, Hexplicit, !elem_of_optional.
    destruct (lossless args) as [[]|]; naive_solver.
  - rewrite !elem_of_app, Hauto, Hexplicit, !elem_of_optional.
    destruct (lossless args) as [[]|]; naive_solver.
  - intros q. rewrite !elem_of_app, Hauto, Hexplicit, !elem_of_optional.
    naive_solver.
  - intros d. rewrite !elem_of_app, Hauto, Hexplicit, !elem_of_optional.
    naive_solver.
  - rewrite !length_app.
    pose proof (length_optional WithWidth (width args)).
    pose proof (length_optional WithHeight (height args)).
    pose proof (length_optional
                  (fun l : bool =>
                     WithCompression (if l then Lossless else Lossy))
                  (lossless args)).
    pose proof (length_optional WithQuality (quality args)).
    pose proof (length_optional WithDpr (dpr args)).
    lia.
Qed.

Lemma resolve_call_iff_witness :
  WithWidth 300 ∈ builder_calls (resolveBuilder pngAsset automaticAndWidth) /\
  WithAutomaticFormat Png
    ∈ builder_calls (resolveBuilder pngAsset automaticAndWidth) /\
  length (builder_calls (resolveBuilder pngAsset automaticAndWidth)) <= 7.
Proof.
  destruct (resolve_call_iff pngAsset automaticAndWidth)
    as (Hw & _ & Ha & _ & _ & _ & _ & _ & Hlen).
  split; [now apply Hw|]. split; [|exact Hlen].
  apply Ha. split; reflexivity.
Defined.

End AssetSchemaResolversFacts.
